(** * go-twitter: the streaming client

    A shallow embedding of [twitter/streams.go]: the message classifier
    ([getMessage], [decodeMessage], [hasPath]), the receive loop, the
    reconnect loop ([retry]) and the facade ([newStream], [Stop]).

    The file has three layers.
    - [encoding/json] as the classifier uses it: JSON values, the scanner
      that accepts or refuses a token, and [json.Unmarshal] into a Go value
      of a given type.
    - The classifier, a pure function from tokens to messages.
    - The stream: the goroutine started by [newStream], the caller of
      [Stop] and the consumer of [Messages], as a transition system over
      the shared fields of the [Stream] struct. *)

From Stdlib Require Import ZArith Ascii String.
From stdpp Require Import base strings gmap list.

#[local] Set Warnings "-register-all".
#[local] Open Scope string_scope.

(** ** Bytes

    A token is a [[]byte]; it is modelled as a [string], a list of 8-bit
    characters. *)

Definition dquote : ascii := "034"%char.
Definition backslash : ascii := "092"%char.

(** [quoted s] is [s] between two double quotes. *)
Definition quoted (s : string) : string :=
  String dquote (s ++ String dquote EmptyString).

Definition byte_of (n : Z) : ascii := ascii_of_N (Z.to_N n).
Definition code_of (c : ascii) : Z := Z.of_N (N_of_ascii c).

(** ** JSON values *)

Inductive json :=
| JNull
| JBool (b : bool)
| JNumber (lit : string)
| JString (s : string)
| JArray (elems : list json)
| JObject (members : list (string * json)).

(** The errors [json.Unmarshal] returns: [*json.SyntaxError] when the
    token is not valid JSON, [*json.UnmarshalTypeError] when a JSON value
    does not fit the Go type it is decoded into. *)
Inductive error :=
| SyntaxError
| UnmarshalTypeError (value : string) (type : string)
| TransportError (msg : string).

Module Scanner.
#[local] Open Scope list_scope.

(** The grammar [encoding/json] accepts (RFC 8259), with its limit on
    nesting: arrays and objects may be open 10000 deep, one more is a
    syntax error. String literals are decoded as [unquote] does: a [\u]
    escape to the UTF-8 encoding of its code point, an unpaired
    surrogate to U+FFFD, and the bytes above 127 are coerced to
    well-formed UTF-8, each byte that begins no well-formed sequence
    becoming U+FFFD. *)

Definition is_ws (c : ascii) : bool :=
  bool_decide (c = " "%char ∨ c = "009"%char ∨ c = "010"%char ∨ c = "013"%char).

Definition is_digit (c : ascii) : bool :=
  bool_decide (48 ≤ code_of c ≤ 57)%Z.

Fixpoint skip_ws (s : list ascii) : list ascii :=
  match s with
  | c :: r => if is_ws c then skip_ws r else s
  | [] => []
  end.

Fixpoint span (p : ascii → bool) (s : list ascii) : list ascii * list ascii :=
  match s with
  | c :: r => if p c then let '(a, b) := span p r in (c :: a, b) else ([], s)
  | [] => ([], [])
  end.

Definition hex_val (c : ascii) : option Z :=
  let n := code_of c in
  if bool_decide (48 ≤ n ≤ 57)%Z then Some (n - 48)%Z
  else if bool_decide (97 ≤ n ≤ 102)%Z then Some (n - 87)%Z
  else if bool_decide (65 ≤ n ≤ 70)%Z then Some (n - 55)%Z
  else None.

Definition hex4 (a b c d : ascii) : option Z :=
  x1 ← hex_val a; x2 ← hex_val b; x3 ← hex_val c; x4 ← hex_val d;
  Some (x1 * 4096 + x2 * 256 + x3 * 16 + x4)%Z.

(** [utf8.EncodeRune] *)
Definition utf8 (r : Z) : list ascii :=
  if bool_decide (r < 128)%Z then [byte_of r]
  else if bool_decide (r < 2048)%Z then
    [byte_of (192 + r / 64); byte_of (128 + r mod 64)]
  else if bool_decide (r < 65536)%Z then
    [byte_of (224 + r / 4096); byte_of (128 + (r / 64) mod 64);
     byte_of (128 + r mod 64)]
  else
    [byte_of (240 + r / 262144); byte_of (128 + (r / 4096) mod 64);
     byte_of (128 + (r / 64) mod 64); byte_of (128 + r mod 64)].

Definition replacement : Z := 65533.
Definition is_surrogate (r : Z) : bool := bool_decide (55296 ≤ r < 57344)%Z.

(** [utf16.DecodeRune] *)
Definition decode_surrogates (r1 r2 : Z) : Z :=
  if bool_decide (55296 ≤ r1 < 56320 ∧ 56320 ≤ r2 < 57344)%Z
  then ((r1 - 55296) * 1024 + (r2 - 56320) + 65536)%Z
  else replacement.

Definition simple_escape (c : ascii) : option ascii :=
  if bool_decide (c = dquote) then Some dquote
  else if bool_decide (c = backslash) then Some backslash
  else if bool_decide (c = "/"%char) then Some "/"%char
  else if bool_decide (c = "b"%char) then Some "008"%char
  else if bool_decide (c = "f"%char) then Some "012"%char
  else if bool_decide (c = "n"%char) then Some "010"%char
  else if bool_decide (c = "r"%char) then Some "013"%char
  else if bool_decide (c = "t"%char) then Some "009"%char
  else None.

(** [utf8.DecodeRune]: the length of the well-formed UTF-8 sequence the
    bytes begin with, 0 when they begin with none. A sequence is well
    formed when it is the shortest encoding of a code point up to
    U+10FFFF that is no surrogate. *)
Definition in_range (lo hi : Z) (c : ascii) : bool :=
  bool_decide (lo ≤ code_of c ≤ hi)%Z.

Definition rune_size (s : list ascii) : nat :=
  match s with
  | [] => 0
  | c0 :: r =>
    let b := code_of c0 in
    if bool_decide (b < 128)%Z then 1
    else if bool_decide (194 ≤ b ≤ 223)%Z then
      match r with
      | c1 :: _ => if in_range 128 191 c1 then 2 else 0
      | _ => 0
      end
    else if bool_decide (224 ≤ b ≤ 239)%Z then
      let lo := if bool_decide (b = 224)%Z then 160%Z else 128%Z in
      let hi := if bool_decide (b = 237)%Z then 159%Z else 191%Z in
      match r with
      | c1 :: c2 :: _ =>
        if in_range lo hi c1 && in_range 128 191 c2 then 3 else 0
      | _ => 0
      end
    else if bool_decide (240 ≤ b ≤ 244)%Z then
      let lo := if bool_decide (b = 240)%Z then 144%Z else 128%Z in
      let hi := if bool_decide (b = 244)%Z then 143%Z else 191%Z in
      match r with
      | c1 :: c2 :: c3 :: _ =>
        if in_range lo hi c1 && in_range 128 191 c2 && in_range 128 191 c3
        then 4 else 0
      | _ => 0
      end
    else 0
  end.

(** The body of a string literal, after its opening quote: the decoded
    bytes and what follows the closing quote. [more] is the number of
    bytes still to copy of the well-formed sequence being read. *)
Fixpoint string_body (more : nat) (s : list ascii) (acc : list ascii)
  : option (list ascii * list ascii) :=
  match s with
  | [] => None
  | c :: r =>
    match more with
    | S more => string_body more r (acc ++ [c])
    | O =>
      if bool_decide (c = dquote) then Some (acc, r)
      else if bool_decide (c = backslash) then
        match r with
        | "u"%char :: h1 :: h2 :: h3 :: h4 :: r1 =>
          match hex4 h1 h2 h3 h4 with
          | None => None
          | Some rr =>
            if is_surrogate rr then
              match r1 with
              | b :: "u"%char :: l1 :: l2 :: l3 :: l4 :: r2 =>
                match (if bool_decide (b = backslash) then hex4 l1 l2 l3 l4 else None) with
                | Some rr1 =>
                  let dec := decode_surrogates rr rr1 in
                  if bool_decide (dec = replacement)
                  then string_body 0 r1 (acc ++ utf8 replacement)
                  else string_body 0 r2 (acc ++ utf8 dec)
                | None => string_body 0 r1 (acc ++ utf8 replacement)
                end
              | _ => string_body 0 r1 (acc ++ utf8 replacement)
              end
            else string_body 0 r1 (acc ++ utf8 rr)
          end
        | e :: r1 =>
          match simple_escape e with
          | Some b => string_body 0 r1 (acc ++ [b])
          | None => None
          end
        | [] => None
        end
      else if bool_decide (code_of c < 32)%Z then None
      else
        match rune_size (c :: r) with
        | O => string_body 0 r (acc ++ utf8 replacement)
        | S more => string_body more r (acc ++ [c])
        end
    end
  end.

(** A number literal: an optional minus sign; a zero, or a digit from 1
    to 9 and any digits; optionally a dot and one digit or more;
    optionally e or E, a sign and one digit or more. *)
Definition number (s : list ascii) : option (list ascii * list ascii) :=
  let '(sign, s1) :=
    match s with "-"%char :: r => (["-"%char], r) | _ => ([], s) end in
  '(int, s2) ←
    match s1 with
    | c :: r =>
      if bool_decide (c = "0"%char) then Some ([c], r)
      else if is_digit c then let '(ds, r') := span is_digit r in Some (c :: ds, r')
      else None
    | [] => None
    end;
  '(frac, s3) ←
    match s2 with
    | "."%char :: r =>
      let '(ds, r') := span is_digit r in
      match ds with [] => None | _ => Some ("."%char :: ds, r') end
    | _ => Some ([], s2)
    end;
  '(exp, s4) ←
    match s3 with
    | c :: r =>
      if bool_decide (c = "e"%char ∨ c = "E"%char) then
        let '(sg, r1) :=
          match r with
          | d :: r' => if bool_decide (d = "+"%char ∨ d = "-"%char) then ([d], r') else ([], r)
          | [] => ([], r)
          end in
        let '(ds, r2) := span is_digit r1 in
        match ds with [] => None | _ => Some (c :: sg ++ ds, r2) end
      else Some ([], s3)
    | [] => Some ([], s3)
    end;
  Some (sign ++ int ++ frac ++ exp, s4).

Definition literal (w : string) (s : list ascii) : option (list ascii) :=
  let w := list_ascii_of_string w in
  if bool_decide (take (length w) s = w) then Some (drop (length w) s) else None.

(** [maxNestingDepth]: how many arrays and objects may be open. *)
Definition maxNestingDepth : N := 10000.

(** [depth] is the number of arrays and objects that are open. *)
Fixpoint value (fuel : nat) (depth : N) (s : list ascii)
  : option (json * list ascii) :=
  match fuel with
  | O => None
  | S fuel =>
    match skip_ws s with
    | [] => None
    | c :: r =>
      if bool_decide (c = "{"%char) then
        if (maxNestingDepth <=? depth)%N then None else
        match skip_ws r with
        | d :: r' =>
          if bool_decide (d = "}"%char) then Some (JObject [], r')
          else '(ms, r'') ← members fuel (N.succ depth) r; Some (JObject ms, r'')
        | [] => None
        end
      else if bool_decide (c = "["%char) then
        if (maxNestingDepth <=? depth)%N then None else
        match skip_ws r with
        | d :: r' =>
          if bool_decide (d = "]"%char) then Some (JArray [], r')
          else '(vs, r'') ← elements fuel (N.succ depth) r; Some (JArray vs, r'')
        | [] => None
        end
      else if bool_decide (c = dquote) then
        '(b, r') ← string_body 0 r []; Some (JString (string_of_list_ascii b), r')
      else if bool_decide (c = "t"%char) then
        r' ← literal "true" (c :: r); Some (JBool true, r')
      else if bool_decide (c = "f"%char) then
        r' ← literal "false" (c :: r); Some (JBool false, r')
      else if bool_decide (c = "n"%char) then
        r' ← literal "null" (c :: r); Some (JNull, r')
      else
        '(n, r') ← number (c :: r); Some (JNumber (string_of_list_ascii n), r')
    end
  end
with elements (fuel : nat) (depth : N) (s : list ascii)
  : option (list json * list ascii) :=
  match fuel with
  | O => None
  | S fuel =>
    '(v, r) ← value fuel depth s;
    match skip_ws r with
    | c :: r' =>
      if bool_decide (c = ","%char) then
        '(vs, r'') ← elements fuel depth r'; Some (v :: vs, r'')
      else if bool_decide (c = "]"%char) then Some ([v], r')
      else None
    | [] => None
    end
  end
with members (fuel : nat) (depth : N) (s : list ascii)
  : option (list (string * json) * list ascii) :=
  match fuel with
  | O => None
  | S fuel =>
    match skip_ws s with
    | q :: r0 =>
      if bool_decide (q = dquote) then
        '(k, r1) ← string_body 0 r0 [];
        match skip_ws r1 with
        | c :: r2 =>
          if bool_decide (c = ":"%char) then
            '(v, r3) ← value fuel depth r2;
            match skip_ws r3 with
            | d :: r4 =>
              if bool_decide (d = ","%char) then
                '(ms, r5) ← members fuel depth r4;
                Some ((string_of_list_ascii k, v) :: ms, r5)
              else if bool_decide (d = "}"%char) then
                Some ([(string_of_list_ascii k, v)], r4)
              else None
            | [] => None
            end
          else None
        | [] => None
        end
      else None
    | [] => None
    end
  end.

(** A token is valid when it is one JSON value between optional white
    space. Every call of [value], [elements] and [members] follows the
    reading of at least one byte, so twice the length is fuel enough. *)
Definition parse (token : string) : option json :=
  let s := list_ascii_of_string token in
  match value (2 * length s + 2) 0 s with
  | Some (v, r) => match skip_ws r with [] => Some v | _ => None end
  | None => None
  end.

End Scanner.

(** ** Go values and [json.Unmarshal] *)

Module Json.

(** The Go types the classifier decodes into. A struct field is its Go
    name, its JSON key and its type; [TNamed] is a struct type declared
    by name, which lets [Tweet] and [Includes] refer to each other. *)
Inductive gotype :=
| TBool
| TInt64
| TFloat64
| TString
| TAny
| TMapAny
| TPtr (t : gotype)
| TSlice (t : gotype)
| TStruct (fields : list (string * string * gotype))
| TNamed (name : string).

Abbreviation field := (string * string * gotype)%type.

(** Go values. A struct holds the fields that were set; a field that is
    absent holds the zero value of its type. A [float64] is kept as the
    literal it was read from. *)
Inductive goval :=
| VNil
| VBool (b : bool)
| VInt (n : Z)
| VFloat (lit : string)
| VString (s : string)
| VPtr (v : goval)
| VSlice (elems : list goval)
| VStruct (fields : gmap string goval)
| VMap (m : gmap string goval).

Definition zero (t : gotype) : goval :=
  match t with
  | TBool => VBool false
  | TInt64 => VInt 0
  | TFloat64 => VFloat "0"
  | TString => VString EmptyString
  | TAny | TMapAny | TPtr _ | TSlice _ => VNil
  | TStruct _ | TNamed _ => VStruct ∅
  end.

(** [UnmarshalTypeError.Value] *)
Definition kind (j : json) : string :=
  match j with
  | JNull => "null"
  | JBool _ => "bool"
  | JNumber _ => "number"
  | JString _ => "string"
  | JArray _ => "array"
  | JObject _ => "object"
  end.

(** [saveError] keeps the first error. *)
Definition first_error (a b : option error) : option error :=
  match a with Some _ => a | None => b end.

Definition first_of (es : list (option error)) : option error :=
  foldr first_error None es.

(** *** Numbers *)

Definition digits_val (ds : list ascii) : Z :=
  foldl (λ a c, a * 10 + (code_of c - 48))%Z 0%Z ds.

Definition unsigned_part (s : list ascii) : list ascii :=
  match s with c :: r => if bool_decide (c = "-"%char) then r else s | [] => [] end.

Definition is_negative (s : list ascii) : bool :=
  match s with c :: _ => bool_decide (c = "-"%char) | [] => false end.

(** A number literal as [m * 10 ^ e], with how many digits [m] was
    written with. *)
Definition decimal (lit : string) : Z * Z * nat :=
  let s := unsigned_part (list_ascii_of_string lit) in
  let '(int, s1) := Scanner.span Scanner.is_digit s in
  let '(frac, s2) :=
    match s1 with
    | c :: r => if bool_decide (c = "."%char) then Scanner.span Scanner.is_digit r else ([], s1)
    | [] => ([], s1)
    end in
  let e :=
    match s2 with
    | _ :: r =>
      let r' := match r with
                | c :: r0 => if bool_decide (c = "+"%char) then r0 else r
                | [] => r
                end in
      (if is_negative r' then -1 else 1) * digits_val (unsigned_part r')
    | [] => 0
    end%Z in
  (digits_val (int ++ frac)%list, (e - Z.of_nat (length frac))%Z, length (int ++ frac)%list).

(** [strconv.ParseFloat(lit, 64)] returns a range error when the value
    is at least half a unit in the last place above the largest
    [float64], that is from [2^1024 - 2^970] on. The comparison is made
    on the exact decimal value. *)
Definition float64_limit : Z := 2 ^ 1024 - 2 ^ 970.

Definition ParseFloat_ok (lit : string) : bool :=
  let '(m, e, n) := decimal lit in
  if bool_decide (m = 0)%Z then true
  else if bool_decide (0 ≤ e)%Z then
    if bool_decide (400 < e)%Z then false
    else bool_decide (m * 10 ^ e < float64_limit)%Z
  else if bool_decide (Z.of_nat n ≤ - e)%Z then true
  else bool_decide (m < float64_limit * 10 ^ (- e))%Z.

(** [strconv.ParseInt(lit, 10, 64)]: digits only, within [int64]. *)
Definition ParseInt (lit : string) : option Z :=
  let s := list_ascii_of_string lit in
  let ds := unsigned_part s in
  if forallb Scanner.is_digit ds && negb (bool_decide (ds = [])) then
    let n := ((if is_negative s then -1 else 1) * digits_val ds)%Z in
    if bool_decide (- 2 ^ 63 ≤ n < 2 ^ 63)%Z then Some n else None
  else None.

(** *** Decoding into [interface{}] *)

Definition insert_member (m : gmap string goval) (kv : string * goval)
  : gmap string goval := <[kv.1 := kv.2]> m.

Fixpoint any (j : json) : goval * option error :=
  match j with
  | JNull => (VNil, None)
  | JBool b => (VBool b, None)
  | JNumber lit =>
    if ParseFloat_ok lit then (VFloat lit, None)
    else (VNil, Some (UnmarshalTypeError ("number " ++ lit) "float64"))
  | JString s => (VString s, None)
  | JArray l =>
    let rs := map any l in
    (VSlice (map fst rs), first_of (map snd rs))
  | JObject ms =>
    let rs := map (λ kv, (kv.1, any kv.2)) ms in
    (VMap (foldl insert_member ∅ (map (λ r, (r.1, r.2.1)) rs)),
     first_of (map (λ r, r.2.2) rs))
  end.

(** *** Decoding into a typed value *)

Definition lower (c : ascii) : ascii :=
  if bool_decide (65 ≤ code_of c ≤ 90)%Z then byte_of (code_of c + 32) else c.

Definition equal_fold (a b : string) : bool :=
  bool_decide (map lower (list_ascii_of_string a) = map lower (list_ascii_of_string b)).

(** The field a JSON key is decoded into: the field with exactly that
    key, otherwise the first one that matches without regard to the
    case of ASCII letters. *)
Definition find_field (fs : list field) (key : string) : option field :=
  match List.find (λ f : field, bool_decide (f.1.2 = key)) fs with
  | Some f => Some f
  | None => List.find (λ f : field, equal_fold f.1.2 key) fs
  end.

Definition fields_of (v : goval) : gmap string goval :=
  match v with VStruct m => m | _ => ∅ end.

Definition type_name (t : gotype) : string :=
  match t with
  | TBool => "bool"
  | TInt64 => "int64"
  | TFloat64 => "float64"
  | TString => "string"
  | TAny => "interface {}"
  | TMapAny => "map[string]interface {}"
  | TPtr _ => "pointer"
  | TSlice _ => "slice"
  | TStruct _ => "struct"
  | TNamed n => n
  end.

Definition mismatch (j : json) (t : gotype) : option error :=
  Some (UnmarshalTypeError (kind j) (type_name t)).

Section Decode.

(** The fields of the struct types declared by name. *)
Variable decls : string → list field.

(** [decode j t cur] decodes [j] into a variable of type [t] that holds
    [cur]: the value the variable holds afterwards and the first error
    met. A value that does not fit leaves the variable as it was,
    [null] clears a pointer, slice, map or interface and leaves every
    other variable as it was, keys without a field are skipped. Slice
    elements are decoded into zero values. *)
Fixpoint decode (j : json) : gotype → goval → goval * option error :=
  fix into (t : gotype) (cur : goval) {struct t} : goval * option error :=
    let object (fs : list field) :=
      match j with
      | JObject ms =>
        let step (acc : gmap string goval * option error) (kv : string * json) :=
          match find_field fs kv.1 with
          | None => acc
          | Some (name, _, ft) =>
            let r := decode kv.2 ft (default (zero ft) (acc.1 !! name)) in
            (<[name := r.1]> acc.1, first_error acc.2 r.2)
          end in
        let r := foldl step (fields_of cur, None) ms in
        (VStruct r.1, r.2)
      | _ => (cur, mismatch j t)
      end in
    match j with
    | JNull =>
      match t with
      | TAny | TMapAny | TPtr _ | TSlice _ => (VNil, None)
      | _ => (cur, None)
      end
    | _ =>
      match t with
      | TPtr t' =>
        let r := into t' (match cur with VPtr v => v | _ => zero t' end) in
        (VPtr r.1, r.2)
      | TAny => any j
      | TMapAny =>
        match j with
        | JObject ms =>
          let rs := map (λ kv, (kv.1, any kv.2)) ms in
          (VMap (foldl insert_member
                   (match cur with VMap m => m | _ => ∅ end)
                   (map (λ r, (r.1, r.2.1)) rs)),
           first_of (map (λ r, r.2.2) rs))
        | _ => (cur, mismatch j t)
        end
      | TBool =>
        match j with JBool b => (VBool b, None) | _ => (cur, mismatch j t) end
      | TString =>
        match j with JString s => (VString s, None) | _ => (cur, mismatch j t) end
      | TInt64 =>
        match j with
        | JNumber lit =>
          match ParseInt lit with
          | Some n => (VInt n, None)
          | None => (cur, Some (UnmarshalTypeError ("number " ++ lit) "int64"))
          end
        | _ => (cur, mismatch j t)
        end
      | TFloat64 =>
        match j with
        | JNumber lit =>
          if ParseFloat_ok lit then (VFloat lit, None)
          else (cur, Some (UnmarshalTypeError ("number " ++ lit) "float64"))
        | _ => (cur, mismatch j t)
        end
      | TSlice t' =>
        match j with
        | JArray l =>
          let rs := map (λ e, decode e t' (zero t')) l in
          (VSlice (map fst rs), first_of (map snd rs))
        | _ => (cur, mismatch j t)
        end
      | TStruct fs => object fs
      | TNamed n => object (decls n)
      end
    end.

(** [json.Unmarshal(token, v)] for [v := new(T)]: the token is checked
    first, and an invalid one leaves [v] untouched. *)
Definition Unmarshal (token : string) (t : gotype) : goval * option error :=
  match Scanner.parse token with
  | None => (zero t, Some SyntaxError)
  | Some j => decode j t (zero t)
  end.

(** The type of a field and the value it holds. *)
Definition field_type (t : gotype) (name : string) : gotype :=
  let fs := match t with TStruct fs => fs | TNamed n => decls n | _ => [] end in
  match List.find (λ f : field, bool_decide (f.1.1 = name)) fs with
  | Some f => f.2
  | None => TAny
  end.

Definition select (tv : gotype * goval) (name : string) : gotype * goval :=
  let ft := field_type tv.1 name in
  (ft, default (zero ft) (fields_of tv.2 !! name)).

End Decode.

End Json.

(** ** The struct types of the package *)

Module Types.
Import Json.

(** A field: Go name, JSON key, type. *)
Definition fld (name key : string) (t : gotype) : field := (name, key, t).

Definition Geo : list field := [fld "PlaceID" "place_id" TString].

Definition Withheld : list field :=
  [fld "Copyright" "copyright" TBool;
   fld "CountryCode" "country_code" (TSlice TString);
   fld "Scope" "scope" TString].

Definition Metrics : list field :=
  [fld "RetweetCount" "retweet_count" TInt64;
   fld "ReplyCount" "reply_count" TInt64;
   fld "LikeCount" "like_count" TInt64;
   fld "QuoteCount" "quote_count" TInt64].

Definition ContextAnnotation : list field :=
  [fld "Domain" "domain"
     (TStruct [fld "ID" "id" TString; fld "Name" "name" TString;
               fld "Description" "description" TString]);
   fld "Entity" "Entity"
     (TStruct [fld "ID" "id" TString; fld "Name" "name" TString])].

Definition PollOption : list field :=
  [fld "Position" "position" TInt64; fld "Label" "label" TString;
   fld "Votes" "votes" TInt64].

Definition Poll : list field :=
  [fld "ID" "id" TString;
   fld "Options" "options" (TSlice (TNamed "PollOption"));
   fld "DurationMinutes" "duration_minutes" TInt64;
   fld "End" "end_datetime" TString;
   fld "VotingStatus" "voting_status" TString].

Definition Place : list field :=
  [fld "FullName" "full_name" TString;
   fld "ID" "id" TString;
   fld "ContainedWithin" "contained_within" (TSlice TString);
   fld "Country" "country" TString;
   fld "CountryCode" "country_code" TString;
   fld "Geo" "geo"
     (TStruct [fld "Type" "type" TString;
               fld "BoundingBox" "bbox" (TSlice TFloat64);
               fld "Properties" "properties" (TStruct [])]);
   fld "Name" "name" TString;
   fld "PlaceType" "place_type" TString].

Definition TagEntity : list field :=
  [fld "Start" "start" TInt64; fld "End" "end" TInt64; fld "Tag" "tag" TString].

Definition URLEntity : list field :=
  [fld "Start" "start" TInt64; fld "End" "end" TInt64;
   fld "DisplayURL" "display_url" TString;
   fld "ExpandedURL" "expanded_url" TString;
   fld "URL" "url" TString;
   fld "UnwoundURL" "unwound_url" TString].

Definition MentionEntity : list field :=
  [fld "Start" "start" TInt64; fld "End" "end" TInt64;
   fld "Username" "username" TString].

Definition Entities : list field :=
  [fld "Hashtags" "hashtags" (TSlice (TNamed "TagEntity"));
   fld "Urls" "urls" (TSlice (TNamed "URLEntity"));
   fld "UserMentions" "user_mentions" (TSlice (TNamed "MentionEntity"));
   fld "Annotations" "annotations" (TSlice (TNamed "ContextAnnotation"));
   fld "Cashtags" "cashtags" (TSlice (TNamed "TagEntity"))].

Definition MediaMetrics : list field :=
  [fld "Playback0Count" "playback_0_count" TInt64;
   fld "Playback25Count" "playback_25_count" TInt64;
   fld "Playback50Count" "playback_50_count" TInt64;
   fld "Playback75Count" "playback_75_count" TInt64;
   fld "Playback100Count" "playback_100_count" TInt64;
   fld "ViewCount" "view_count" TInt64].

Definition MediaEntity : list field :=
  [fld "MediaKey" "media_key" TString;
   fld "DurationMillis" "duration_ms" TInt64;
   fld "Height" "height" TInt64;
   fld "NonPublicMetrics" "non_public_metrics" (TNamed "MediaMetrics");
   fld "OrganicMetrics" "organic_metrics" (TNamed "MediaMetrics");
   fld "Type" "type" TString;
   fld "PreviewImageURL" "preview_image_url" TString;
   fld "PromotedMetrics" "promoted_metrics" (TNamed "MediaMetrics");
   fld "PublicMetrics" "public_metrics" (TNamed "MediaMetrics");
   fld "Width" "width" TInt64;
   fld "AltText" "alt_text" TString].

Definition UserEntities : list field :=
  [fld "URL" "url" (TNamed "Entities");
   fld "Description" "description" (TNamed "Entities")].

Definition ExtendedEntity : list field :=
  [fld "Media" "media" (TSlice (TNamed "MediaEntity"))].

Definition UserPublicMetrics : list field :=
  [fld "FollowersCount" "followers_count" TInt64;
   fld "FollowingCount" "following_count" TInt64;
   fld "TweetCount" "tweet_count" TInt64;
   fld "ListedCount" "listed_count" TInt64].

Definition User : list field :=
  [fld "ID" "id" TString;
   fld "Name" "name" TString;
   fld "Username" "username" TString;
   fld "CreatedAt" "created_at" TString;
   fld "Description" "description" TString;
   fld "Entities" "entities" (TPtr (TNamed "UserEntities"));
   fld "Location" "location" TString;
   fld "PinnedTweetID" "pinned_tweet_id" TString;
   fld "ProfileImageURL" "profile_image_url" TString;
   fld "Protected" "protected" TBool;
   fld "PublicMetrics" "public_metrics" (TNamed "UserPublicMetrics");
   fld "URL" "url" TString;
   fld "Verified" "verified" TBool;
   fld "Withheld" "withheld" (TNamed "Withheld")].

Definition Tweet : list field :=
  [fld "Attachments" "attachments"
     (TStruct [fld "MediaKeys" "media_keys" (TSlice TString);
               fld "PollID" "poll_id" (TSlice TString)]);
   fld "AuthorID" "author_id" TString;
   fld "ContextAnnotations" "context_annotations"
     (TSlice (TPtr (TNamed "ContextAnnotation")));
   fld "ConversationID" "conversation_id" TString;
   fld "CreatedAt" "created_at" TString;
   fld "Entities" "entities" (TNamed "Entities");
   fld "Geo" "geo" (TPtr (TNamed "Geo"));
   fld "Includes" "includes" (TPtr (TNamed "Includes"));
   fld "ID" "id" TString;
   fld "InReplyToStatusID" "in_reply_to_status_id" TString;
   fld "InReplyToUserID" "in_reply_to_user_id" TString;
   fld "Lang" "lang" TString;
   fld "PossiblySensitive" "possibly_sensitive" TBool;
   fld "ReferencedTweets" "referenced_tweets"
     (TStruct [fld "Type" "type" TString; fld "ID" "id" TString]);
   fld "PublicMetrics" "public_metrics" (TPtr (TNamed "Metrics"));
   fld "NonPublicMetrics" "non_public_metrics" (TPtr (TNamed "Metrics"));
   fld "OrganicMetrices" "organic_metrics" (TPtr (TNamed "Metrics"));
   fld "PromotedMetrics" "promoted_metrics" (TPtr (TNamed "Metrics"));
   fld "ReplySettings" "reply_settings" TString;
   fld "Source" "source" TString;
   fld "Text" "text" TString;
   fld "Withheld" "withheld" (TPtr (TNamed "Withheld"))].

Definition Includes : list field :=
  [fld "Tweets" "tweets" (TSlice (TPtr (TNamed "Tweet")));
   fld "Users" "users" (TSlice (TPtr (TNamed "User")));
   fld "Media" "media" (TSlice (TPtr (TNamed "MediaEntity")));
   fld "Places" "places" (TSlice (TPtr (TNamed "Place")));
   fld "Polls" "polls" (TSlice (TPtr (TNamed "Poll")))].

Definition StreamData : list field :=
  [fld "Tweet" "data" (TPtr (TNamed "Tweet"));
   fld "Includes" "includes" (TPtr (TNamed "Includes"));
   fld "Attachments" "attachments" (TPtr (TNamed "ExtendedEntity"));
   fld "MatchingRules" "matching_rules"
     (TSlice (TStruct [fld "Id" "id" TString; fld "Tag" "tag" TString]))].

Definition declared : list (string * list field) :=
  [("Geo", Geo); ("Withheld", Withheld); ("Metrics", Metrics);
   ("ContextAnnotation", ContextAnnotation); ("PollOption", PollOption);
   ("Poll", Poll); ("Place", Place); ("TagEntity", TagEntity);
   ("URLEntity", URLEntity); ("MentionEntity", MentionEntity);
   ("Entities", Entities); ("MediaMetrics", MediaMetrics);
   ("MediaEntity", MediaEntity); ("UserEntities", UserEntities);
   ("ExtendedEntity", ExtendedEntity);
   ("UserPublicMetrics", UserPublicMetrics); ("User", User);
   ("Tweet", Tweet); ("Includes", Includes); ("StreamData", StreamData)].

Definition decls (name : string) : list field :=
  match List.find (λ d : string * list field, bool_decide (d.1 = name)) declared with
  | Some d => d.2
  | None => []
  end.

(** The types [decodeMessage] decodes into whose declarations are in
    files of the package other than the ones at hand: the eight notice
    envelopes, [FriendsList] and [Event]. They are parameters of the
    classifier. *)
Class Declarations := {
  directMessageNotice : gotype;
  statusDeletionNotice : gotype;
  locationDeletionNotice : gotype;
  streamLimitNotice : gotype;
  statusWithheldNotice : gotype;
  userWithheldNotice : gotype;
  streamDisconnectNotice : gotype;
  stallWarningNotice : gotype;
  FriendsList : gotype;
  Event : gotype;
}.

End Types.

(** ** The message classifier *)

Export Json Types.

(** What is sent on [Messages]: an [interface{}] whose dynamic type is a
    pointer to one of the message structs, a [map[string]interface{}], or
    an [error]. *)
Inductive Message :=
| MTweet (tweet : goval)
| MDirectMessage (dm : goval)
| MStatusDeletion (d : goval)
| MLocationDeletion (d : goval)
| MStreamLimit (l : goval)
| MStatusWithheld (w : goval)
| MUserWithheld (w : goval)
| MStreamDisconnect (d : goval)
| MStallWarning (w : goval)
| MFriendsList (f : goval)
| MEvent (e : goval)
| MStreamData (d : goval)
| MData (data : goval)
| MError (err : error).

(** [hasPath] returns true if the map contains the given key, false
    otherwise; a nil map contains no key. *)
Definition hasPath (data : goval) (key : string) : bool :=
  match data with
  | VMap m => bool_decide (is_Some (m !! key))
  | _ => false
  end.

(** [v := new(T); json.Unmarshal(token, v)] *)
Definition unmarshal (token : string) (t : gotype) : goval * option error :=
  Unmarshal decls token t.

(** [v.f1.f2...] for [v] of type [t] *)
Definition get (t : gotype) (v : goval) (path : list string) : goval :=
  (foldl (select decls) (t, v) path).2.

Section Classifier.
Context {D : Declarations}.

(** [decodeMessage] determines the message type from known data keys,
    allocates at most one message struct, and JSON decodes the token
    into the message. The error of that decoding is not looked at. *)
Definition decodeMessage (token : string) (data : goval) : Message :=
  if hasPath data "retweet_count" then
    let '(tweet, _) := unmarshal token (TNamed "Tweet") in
    MTweet tweet
  else if hasPath data "direct_message" then
    let '(notice, _) := unmarshal token directMessageNotice in
    MDirectMessage (get directMessageNotice notice ["DirectMessage"])
  else if hasPath data "delete" then
    let '(notice, _) := unmarshal token statusDeletionNotice in
    MStatusDeletion (get statusDeletionNotice notice ["Delete"; "StatusDeletion"])
  else if hasPath data "scrub_geo" then
    let '(notice, _) := unmarshal token locationDeletionNotice in
    MLocationDeletion (get locationDeletionNotice notice ["ScrubGeo"])
  else if hasPath data "limit" then
    let '(notice, _) := unmarshal token streamLimitNotice in
    MStreamLimit (get streamLimitNotice notice ["Limit"])
  else if hasPath data "status_withheld" then
    let '(notice, _) := unmarshal token statusWithheldNotice in
    MStatusWithheld (get statusWithheldNotice notice ["StatusWithheld"])
  else if hasPath data "user_withheld" then
    let '(notice, _) := unmarshal token userWithheldNotice in
    MUserWithheld (get userWithheldNotice notice ["UserWithheld"])
  else if hasPath data "disconnect" then
    let '(notice, _) := unmarshal token streamDisconnectNotice in
    MStreamDisconnect (get streamDisconnectNotice notice ["StreamDisconnect"])
  else if hasPath data "warning" then
    let '(notice, _) := unmarshal token stallWarningNotice in
    MStallWarning (get stallWarningNotice notice ["StallWarning"])
  else if hasPath data "friends" then
    let '(friendsList, _) := unmarshal token FriendsList in
    MFriendsList friendsList
  else if hasPath data "event" then
    let '(event, _) := unmarshal token Event in
    MEvent event
  else if hasPath data "matching_rules" then
    let '(streamData, _) := unmarshal token (TNamed "StreamData") in
    MStreamData streamData
  else
    MData data.

(** [getMessage] unmarshals the token and returns a message struct, if
    the type can be determined. Otherwise, returns the token
    unmarshalled into a data map or the unmarshal error. *)
Definition getMessage (token : string) : Message :=
  let '(data, err) := unmarshal token TMapAny in
  match err with
  | Some e => MError e
  | None => decodeMessage token data
  end.

(** *** The classification as the specification words it

    An ordered table of keys and shapes; the first key of the table that
    is present selects the shape; an envelope is unwrapped to the one
    payload it holds. *)
Inductive shape :=
| Tweet_shape
| DirectMessage_shape
| StatusDeletionNotice_shape
| LocationDeletionNotice_shape
| StreamLimitNotice_shape
| StatusWithheldNotice_shape
| UserWithheldNotice_shape
| StreamDisconnectNotice_shape
| StallWarningNotice_shape
| FriendsList_shape
| Event_shape
| StreamEnvelope_shape.

Definition priority : list (string * shape) :=
  [("retweet_count", Tweet_shape);
   ("direct_message", DirectMessage_shape);
   ("delete", StatusDeletionNotice_shape);
   ("scrub_geo", LocationDeletionNotice_shape);
   ("limit", StreamLimitNotice_shape);
   ("status_withheld", StatusWithheldNotice_shape);
   ("user_withheld", UserWithheldNotice_shape);
   ("disconnect", StreamDisconnectNotice_shape);
   ("warning", StallWarningNotice_shape);
   ("friends", FriendsList_shape);
   ("event", Event_shape);
   ("matching_rules", StreamEnvelope_shape)].

(** The Go type a shape is decoded into, and for an envelope the path
    to its payload. *)
Definition target (s : shape) : gotype * list string :=
  match s with
  | Tweet_shape => (TNamed "Tweet", [])
  | DirectMessage_shape => (directMessageNotice, ["DirectMessage"])
  | StatusDeletionNotice_shape => (statusDeletionNotice, ["Delete"; "StatusDeletion"])
  | LocationDeletionNotice_shape => (locationDeletionNotice, ["ScrubGeo"])
  | StreamLimitNotice_shape => (streamLimitNotice, ["Limit"])
  | StatusWithheldNotice_shape => (statusWithheldNotice, ["StatusWithheld"])
  | UserWithheldNotice_shape => (userWithheldNotice, ["UserWithheld"])
  | StreamDisconnectNotice_shape => (streamDisconnectNotice, ["StreamDisconnect"])
  | StallWarningNotice_shape => (stallWarningNotice, ["StallWarning"])
  | FriendsList_shape => (FriendsList, [])
  | Event_shape => (Event, [])
  | StreamEnvelope_shape => (TNamed "StreamData", [])
  end.

Definition variant (s : shape) (payload : goval) : Message :=
  match s with
  | Tweet_shape => MTweet payload
  | DirectMessage_shape => MDirectMessage payload
  | StatusDeletionNotice_shape => MStatusDeletion payload
  | LocationDeletionNotice_shape => MLocationDeletion payload
  | StreamLimitNotice_shape => MStreamLimit payload
  | StatusWithheldNotice_shape => MStatusWithheld payload
  | UserWithheldNotice_shape => MUserWithheld payload
  | StreamDisconnectNotice_shape => MStreamDisconnect payload
  | StallWarningNotice_shape => MStallWarning payload
  | FriendsList_shape => MFriendsList payload
  | Event_shape => MEvent payload
  | StreamEnvelope_shape => MStreamData payload
  end.

(** An envelope unwrapped to its inner payload, in the words of the
    specification: the value that the decoded envelope holds under the
    field of the payload, and under the field inside it for a path of
    two names; an empty path is the decoded value itself. A field that
    the decoding did not set gives none. *)
Fixpoint project (v : goval) (path : list string) : option goval :=
  match path with
  | [] => Some v
  | name :: rest =>
    match v with
    | VStruct m => m !! name ≫= λ x, project x rest
    | _ => None
    end
  end.

(** The shape of a message; a data map and an error have none. *)
Definition shape_of (m : Message) : option shape :=
  match m with
  | MTweet _ => Some Tweet_shape
  | MDirectMessage _ => Some DirectMessage_shape
  | MStatusDeletion _ => Some StatusDeletionNotice_shape
  | MLocationDeletion _ => Some LocationDeletionNotice_shape
  | MStreamLimit _ => Some StreamLimitNotice_shape
  | MStatusWithheld _ => Some StatusWithheldNotice_shape
  | MUserWithheld _ => Some UserWithheldNotice_shape
  | MStreamDisconnect _ => Some StreamDisconnectNotice_shape
  | MStallWarning _ => Some StallWarningNotice_shape
  | MFriendsList _ => Some FriendsList_shape
  | MEvent _ => Some Event_shape
  | MStreamData _ => Some StreamEnvelope_shape
  | MData _ | MError _ => None
  end.

(** The token decoded as the shape asks, and its payload delivered. *)
Definition deliver (s : shape) (token : string) : Message :=
  let '(t, path) := target s in
  variant s (get t (unmarshal token t).1 path).

Definition first_match (data : goval) : option shape :=
  snd <$> List.find (λ e : string * shape, hasPath data e.1) priority.

Definition Classify (token : string) (data : goval) : Message :=
  match first_match data with
  | Some s => deliver s token
  | None => MData data
  end.

End Classifier.

(** Modelled from the spec: the declarations of the eight notice
    envelopes, of [FriendsList] and of [Event] are in files of the package
    that are not at hand. Section 4.3 and the glossary of the specification
    have an envelope wrap a single payload field under the key it is
    recognised by, and the example of section 8 has the status deletion
    under [delete] then [status], with a string [id]. The other payloads'
    fields are not given: a payload is kept as the JSON it was decoded
    from. *)
Definition spec_declarations : Declarations := {|
  directMessageNotice := TStruct [fld "DirectMessage" "direct_message" TAny];
  statusDeletionNotice :=
    TStruct [fld "Delete" "delete"
               (TStruct [fld "StatusDeletion" "status"
                           (TPtr (TStruct [fld "ID" "id" TString]))])];
  locationDeletionNotice := TStruct [fld "ScrubGeo" "scrub_geo" TAny];
  streamLimitNotice := TStruct [fld "Limit" "limit" TAny];
  statusWithheldNotice := TStruct [fld "StatusWithheld" "status_withheld" TAny];
  userWithheldNotice := TStruct [fld "UserWithheld" "user_withheld" TAny];
  streamDisconnectNotice := TStruct [fld "StreamDisconnect" "disconnect" TAny];
  stallWarningNotice := TStruct [fld "StallWarning" "warning" TAny];
  FriendsList := TStruct [fld "Friends" "friends" TAny];
  Event := TStruct [fld "Event" "event" TAny];
|}.

(** ** The stream *)

(** [backoff.BackOff]: [NextBackOff] returns the duration to wait before
    the next retry, or [Stop], and moves the policy on; [Reset] brings it
    back. A duration is a number of nanoseconds. *)
Class BackOff (B : Type) := {
  NextBackOff : B → Z * B;
  Reset : B → B;
}.

(** [backoff.Stop] *)
Definition Stop_duration : Z := -1.

(** What the goroutine meets outside the program: the result of each call
    of [s.client.Do(req)], numbered from 0, and of each read from the body
    of a response. The body of a response is named by the number of the
    call that returned it. *)
Inductive do_result :=
| DoError (err : error)
| Response (StatusCode : Z).

Inductive read_result :=
| Token (data : string)
| ReadError.

(** Modelled from the spec: [newStreamResponseBodyReader] and its
    [readNext] are in a file of the package that is not at hand. By section
    4.2 [readNext] returns the next line of the body without its newline,
    a line of length zero for a keep-alive, or an error when no more
    tokens are available. [readNext b k] is what the read number [k] from
    body [b] returns. *)
Class World := {
  Do : nat → do_result;
  readNext : nat → nat → read_result;
}.

Inductive chan := Open | Closed.

(** Modelled from the spec: [stopped] is in a file of the package that is
    not at hand; it tells whether the cancellation signal was given, that
    is whether [done] is closed. *)
Definition stopped (done : chan) : bool :=
  match done with Closed => true | Open => false end.

(** Where the goroutine running [retry] is. *)
Inductive position :=
| LoopHead                  (* for !stopped(s.done) *)
| Connect                   (* resp, err := s.client.Do(req) ... switch *)
| SendError (err : error)   (* s.Messages <- err *)
| ReceiveHead               (* receive: for !stopped(s.done) *)
| ReadNext                  (* data, err := reader.readNext() *)
| Select (m : Message)      (* select: s.Messages <- getMessage(data), <-s.done *)
| ResetBackOffs             (* expBackOff.Reset(); aggExpBackOff.Reset() *)
| CloseBody                 (* resp.Body.Close(); if wait == backoff.Stop *)
| Sleep                     (* sleepOrDone(wait, s.done) *)
| Deferred                  (* return: the deferred resp.Body.Close() calls *)
| GroupDone                 (* deferred s.group.Done() *)
| CloseMessages             (* deferred close(s.Messages) *)
| Exited.

(** Where the caller of [Stop] is. *)
Inductive caller_position :=
| Idle                      (* not inside Stop *)
| AtCloseDone               (* close(s.done) *)
| AtBodyClose               (* if s.body != nil { s.body.Close() } *)
| AtWait.                   (* s.group.Wait() *)

(** The fields of the [Stream] struct that the goroutine and the caller
    share. *)
Record Stream := {
  done : chan;
  Messages : chan;
  group : nat;
  body : option nat;
}.

Section Retry.
Context {D : Declarations} {W : World} {E A : Type} {BE : BackOff E} {BA : BackOff A}.

(** The local variables of [retry] and [receive]. *)
Record routine := {
  pc : position;
  wait : Z;
  expBackOff : E;
  aggExpBackOff : A;
  resp : nat;              (* the body of the response of this attempt *)
  deferred : list nat;     (* bodies with a deferred Close, last first *)
  attempts : nat;          (* calls of client.Do made *)
  reads : nat;             (* reads made from the body of this attempt *)
}.

Record state := {
  stream : Stream;
  task : routine;
  caller : caller_position;
  returned : nat;          (* calls of Stop that have returned *)
  panicked : bool;
  closed : gset nat;       (* bodies that were closed *)
  received : list Message; (* what the consumer has received *)
  slept : list Z;          (* the waits that ran their full time *)
closes : nat;            (* times close(s.Messages) has run *)
}.

Definition with_pc (p : position) (r : routine) : routine :=
  {| pc := p; wait := wait r; expBackOff := expBackOff r;
     aggExpBackOff := aggExpBackOff r; resp := resp r;
     deferred := deferred r; attempts := attempts r; reads := reads r |}.

Definition with_task (r : routine) (σ : state) : state :=
  {| stream := stream σ; task := r; caller := caller σ;
     returned := returned σ; panicked := panicked σ; closed := closed σ;
     received := received σ; slept := slept σ;
   closes := closes σ |}.

Definition with_stream (s : Stream) (σ : state) : state :=
  {| stream := s; task := task σ; caller := caller σ;
     returned := returned σ; panicked := panicked σ; closed := closed σ;
     received := received σ; slept := slept σ;
   closes := closes σ |}.

Definition with_caller (c : caller_position) (σ : state) : state :=
  {| stream := stream σ; task := task σ; caller := c;
     returned := returned σ; panicked := panicked σ; closed := closed σ;
     received := received σ; slept := slept σ;
   closes := closes σ |}.

Definition goto (p : position) (σ : state) : state :=
  with_task (with_pc p (task σ)) σ.

(** [b.Close()] *)
Definition close_body (b : nat) (σ : state) : state :=
  {| stream := stream σ; task := task σ; caller := caller σ;
     returned := returned σ; panicked := panicked σ;
     closed := {[b]} ∪ closed σ;
     received := received σ; slept := slept σ;
   closes := closes σ |}.

(** The consumer receives [m]. *)
Definition receive_message (m : Message) (σ : state) : state :=
  {| stream := stream σ; task := task σ; caller := caller σ;
     returned := returned σ; panicked := panicked σ; closed := closed σ;
     received := received σ ++ [m]; slept := slept σ;
   closes := closes σ |}.

Definition sleep (d : Z) (σ : state) : state :=
  {| stream := stream σ; task := task σ; caller := caller σ;
     returned := returned σ; panicked := panicked σ; closed := closed σ;
     received := received σ; slept := slept σ ++ [d];
   closes := closes σ |}.

(** A panic of any goroutine ends the program. *)
Definition panic (σ : state) : state :=
  {| stream := stream σ; task := task σ; caller := caller σ;
     returned := returned σ; panicked := true; closed := closed σ;
     received := received σ; slept := slept σ;
   closes := closes σ |}.

(** Lines 142 to 167: the call of [client.Do] and the switch on the
    status code, as one step, taken when [s.body] is assigned: the state
    in which [client.Do] has returned and [s.body] is not yet assigned
    is not told apart from the state before the call. *)
Definition connect (σ : state) : state :=
  let r := task σ in
  let n := attempts r in
  match Do n with
  | DoError err =>
    with_task {| pc := SendError err; wait := wait r;
                 expBackOff := expBackOff r; aggExpBackOff := aggExpBackOff r;
                 resp := resp r; deferred := deferred r;
                 attempts := S n; reads := reads r |} σ
  | Response status =>
    let s := stream σ in
    let σ := with_stream {| done := done s; Messages := Messages s;
                            group := group s; body := Some n |} σ in
    let r := {| pc := pc r; wait := wait r;
                expBackOff := expBackOff r; aggExpBackOff := aggExpBackOff r;
                resp := n; deferred := n :: deferred r;
                attempts := S n; reads := 0 |} in
    if bool_decide (status = 200)%Z then
      with_task (with_pc ReceiveHead r) σ
    else if bool_decide (status = 503)%Z then
      let '(w, b) := NextBackOff (expBackOff r) in
      with_task {| pc := CloseBody; wait := w;
                   expBackOff := b; aggExpBackOff := aggExpBackOff r;
                   resp := resp r; deferred := deferred r;
                   attempts := attempts r; reads := reads r |} σ
    else if bool_decide (status = 420 ∨ status = 429)%Z then
      let '(w, b) := NextBackOff (aggExpBackOff r) in
      with_task {| pc := CloseBody; wait := w;
                   expBackOff := expBackOff r; aggExpBackOff := b;
                   resp := resp r; deferred := deferred r;
                   attempts := attempts r; reads := reads r |} σ
    else
      close_body n (with_task (with_pc Deferred r) σ)
  end.

(** Lines 183 to 190: one read, and what [receive] does with it. The
    step is the return of [readNext]; how long the read waits for the
    server, and that closing the body makes it return, is not part of
    the step. *)
Definition read (σ : state) : state :=
  let r := task σ in
  match readNext (resp r) (reads r) with
  | ReadError => goto ResetBackOffs σ
  | Token data =>
    let r := {| pc := if bool_decide (String.length data = 0)
                      then ReceiveHead else Select (getMessage data);
                wait := wait r;
                expBackOff := expBackOff r; aggExpBackOff := aggExpBackOff r;
                resp := resp r; deferred := deferred r;
                attempts := attempts r; reads := S (reads r) |} in
    with_task r σ
  end.

Definition reset_backoffs (σ : state) : state :=
  let r := task σ in
  with_task {| pc := CloseBody; wait := wait r;
               expBackOff := Reset (expBackOff r);
               aggExpBackOff := Reset (aggExpBackOff r);
               resp := resp r; deferred := deferred r;
               attempts := attempts r; reads := reads r |} σ.

(** The deferred calls run last registered first: the [Body.Close] of
    every response, then [s.group.Done()], then [close(s.Messages)]. *)
Definition run_deferred (σ : state) : state :=
  let r := task σ in
  match deferred r with
  | b :: rest =>
    close_body b
      (with_task {| pc := pc r; wait := wait r;
                    expBackOff := expBackOff r; aggExpBackOff := aggExpBackOff r;
                    resp := resp r; deferred := rest;
                    attempts := attempts r; reads := reads r |} σ)
  | [] => goto GroupDone σ
  end.

(** [s.group.Done()]; below zero it panics. *)
Definition group_done (σ : state) : state :=
  let s := stream σ in
  match group s with
  | O => panic σ
  | S n =>
    goto CloseMessages
      (with_stream {| done := done s; Messages := Messages s;
                      group := n; body := body s |} σ)
  end.

(** [close(s.Messages)]; closing a closed channel panics. *)
Definition close_Messages (σ : state) : state :=
  let s := stream σ in
  match Messages s with
  | Closed => panic σ
  | Open =>
    goto Exited
      {| stream := {| done := done s; Messages := Closed;
                      group := group s; body := body s |};
         task := task σ; caller := caller σ;
         returned := returned σ; panicked := panicked σ; closed := closed σ;
         received := received σ; slept := slept σ;
         closes := S (closes σ) |}
  end.

(** The steps of the program. [Run]: the goroutine runs its next
    statement; a send on [Messages] is not one, it needs a receiver.
    [Receive]: the consumer receives what the goroutine is sending.
    [OnDone]: the select of [receive], or [sleepOrDone], takes the closed
    [done] channel. [Call]: the caller calls [Stop]. [Stopper]: the
    caller runs the next statement of [Stop]. *)
Inductive label := Run | Receive | OnDone | Call | Stopper.

(** [retry] and the [receive] it calls, a statement a step. The call of
    [client.Do] and the switch on the status code are one step: but for
    [s.body] they touch what only the goroutine holds. At [Sleep] the
    step is the timer of [sleepOrDone] running out. *)
Definition retry (σ : state) : option state :=
  match pc (task σ) with
  | LoopHead =>
    Some (goto (if stopped (done (stream σ)) then Deferred else Connect) σ)
  | Connect => Some (connect σ)
  | SendError _ => None
  | ReceiveHead =>
    Some (goto (if stopped (done (stream σ)) then ResetBackOffs else ReadNext) σ)
  | ReadNext => Some (read σ)
  | Select _ => None
  | ResetBackOffs => Some (reset_backoffs σ)
  | CloseBody =>
    Some (goto (if bool_decide (wait (task σ) = Stop_duration) then Deferred else Sleep)
               (close_body (resp (task σ)) σ))
  | Sleep => Some (goto LoopHead (sleep (wait (task σ)) σ))
  | Deferred => Some (run_deferred σ)
  | GroupDone => Some (group_done σ)
  | CloseMessages => Some (close_Messages σ)
  | Exited => None
  end.

(** A send on [Messages], which has no buffer, is done when the consumer
    receives. *)
Definition consume (σ : state) : option state :=
  match pc (task σ), Messages (stream σ) with
  | SendError err, Open => Some (goto Deferred (receive_message (MError err) σ))
  | Select m, Open => Some (goto ReceiveHead (receive_message m σ))
  | _, _ => None
  end.

(** Modelled from the spec: [sleepOrDone] is in a file of the package
    that is not at hand; by sections 4.4 and 5 it waits the given
    duration and a closed [done] wakes it at once. The select of
    [receive] takes [<-s.done] when [done] is closed. *)
Definition on_done (σ : state) : option state :=
  match pc (task σ), done (stream σ) with
  | Select _, Closed => Some (goto ResetBackOffs σ)
  | Sleep, Closed => Some (goto LoopHead σ)
  | _, _ => None
  end.

(** [Stop] signals retry and receiver to stop, closes the response body
    and blocks until the goroutine is done. *)
Definition Stop (σ : state) : option state :=
  let s := stream σ in
  match caller σ with
  | Idle => None
  | AtCloseDone =>
    match done s with
    | Closed => Some (panic σ)
    | Open =>
      Some (with_caller AtBodyClose
              (with_stream {| done := Closed; Messages := Messages s;
                              group := group s; body := body s |} σ))
    end
  | AtBodyClose =>
    Some (with_caller AtWait
            (match body s with Some b => close_body b σ | None => σ end))
  | AtWait =>
    match group s with
    | O =>
      Some {| stream := stream σ; task := task σ; caller := Idle;
              returned := S (returned σ); panicked := panicked σ;
              closed := closed σ; received := received σ; slept := slept σ;
   closes := closes σ |}
    | S _ => None
    end
  end.

Definition step (l : label) (σ : state) : option state :=
  if panicked σ then None
  else match l with
       | Run => retry σ
       | Receive => consume σ
       | OnDone => on_done σ
       | Call => match caller σ with Idle => Some (with_caller AtCloseDone σ) | _ => None end
       | Stopper => Stop σ
       end.

(** A schedule is the list of the steps taken, in order. *)
Fixpoint exec (ls : list label) (σ : state) : option state :=
  match ls with
  | [] => Some σ
  | l :: ls => σ' ← step l σ; exec ls σ'
  end.

(** [newStream]: the struct is made, [s.group.Add(1)], and the
    goroutine is started with the two policies. *)
Definition newStream (exp : E) (agg : A) : state :=
  {| stream := {| done := Open; Messages := Open; group := 1; body := None |};
     task := {| pc := LoopHead; wait := 0; expBackOff := exp;
                aggExpBackOff := agg; resp := 0; deferred := [];
                attempts := 0; reads := 0 |};
     caller := Idle; returned := 0; panicked := false;
     closed := ∅; received := []; slept := []; closes := 0 |}.

Definition reachable (exp : E) (agg : A) (σ : state) : Prop :=
  ∃ ls, exec ls (newStream exp agg) = Some σ.

(** *** What the properties are stated with *)

(** The goroutine has left the loop of [retry] and is returning. *)
Definition returning (p : position) : bool :=
  match p with
  | Deferred | GroupDone | CloseMessages | Exited => true
  | _ => false
  end.

(** The goroutine is in the loop of [receive]. *)
Definition in_receive (p : position) : bool :=
  match p with
  | ReceiveHead | ReadNext | Select _ => true
  | _ => false
  end.

(** The message the goroutine is sending from [receive]. *)
Definition pending (p : position) : list Message :=
  match p with Select m => [m] | _ => [] end.

(** The tokens that the first [k] reads from body [b] returned. *)
Definition tokens_read (b k : nat) : list string :=
  flat_map (λ i, match readNext b i with Token d => [d] | ReadError => [] end)
           (seq 0 k).

(** The messages of the tokens that are not keep-alives, in order. *)
Definition forwarded (tokens : list string) : list Message :=
  map getMessage (List.filter (λ d, negb (bool_decide (String.length d = 0))) tokens).

(** The goroutine is returning for good: on every schedule it stays
    returning, makes no other attempt, waits no more and sends no more;
    and run on its own it gets to [Exited]. *)
Definition finishes (σ : state) : Prop :=
  returning (pc (task σ)) = true
  ∧ (∀ ls σ', exec ls σ = Some σ' →
       returning (pc (task σ')) = true
       ∧ attempts (task σ') = attempts (task σ)
       ∧ slept σ' = slept σ
       ∧ received σ' = received σ)
  ∧ ∃ n σ', exec (replicate n Run) σ = Some σ' ∧ pc (task σ') = Exited.

(** The goroutine is in [retry] and not in a call of [receive], nor
    sending the error of the transport. *)
Definition after_receive (p : position) : bool :=
  match p with
  | SendError _ | ReceiveHead | ReadNext | Select _ => false
  | _ => true
  end.

(** What holds of a state [σ] that the program gets to from a state [σ0]
    at the head of the loop of [receive], as long as the goroutine has made
    no other attempt: the goroutine reads the same body, every read made
    returned a token, and what was received since [σ0], with the message
    being sent if there is one, is the messages of the tokens read that
    are not keep-alives; [rest] is that message, or the one that was
    dropped when the select took [done]. *)
Definition receive_invariant (σ0 σ : state) : Prop :=
  (attempts (task σ0) ≤ attempts (task σ))%nat
  ∧ (attempts (task σ) = attempts (task σ0) →
       resp (task σ) = resp (task σ0)
       ∧ (∀ err, pc (task σ) ≠ SendError err)
       ∧ (∀ i, i < reads (task σ) → ∃ d, readNext (resp (task σ0)) i = Token d)
       ∧ ∃ rest,
           (received σ ++ rest
            = received σ0
              ++ forwarded (tokens_read (resp (task σ0)) (reads (task σ))))%list
           ∧ (length rest ≤ 1)%nat
           ∧ (in_receive (pc (task σ)) = true → rest = pending (pc (task σ)))
           ∧ (in_receive (pc (task σ)) = false →
                done (stream σ) = Open → rest = [])).

(** What holds of a state [σ] that the program gets to after [receive]
    has returned, as long as the goroutine has made no other attempt: it
    has not entered [receive] again, has read no more and has sent no
    more. *)
Definition returned_invariant (a k : nat) (rcv : list Message) (σ : state) : Prop :=
  (a ≤ attempts (task σ))%nat
  ∧ (attempts (task σ) = a →
       after_receive (pc (task σ)) = true
       ∧ reads (task σ) = k
       ∧ received σ = rcv).

(** What holds in every state the program gets to. *)
Definition invariant (σ : state) : Prop :=
  group (stream σ)
    = match pc (task σ) with CloseMessages | Exited => 0 | _ => 1 end
  ∧ Messages (stream σ)
    = match pc (task σ) with Exited => Closed | _ => Open end
  ∧ closes σ = match pc (task σ) with Exited => 1 | _ => 0 end
  ∧ (∀ b status, b < attempts (task σ) → Do b = Response status →
       b ∈ closed σ ∨ b ∈ deferred (task σ))
  ∧ match pc (task σ) with
    | GroupDone | CloseMessages | Exited => deferred (task σ) = []
    | _ => True
    end
  ∧ (done (stream σ) = Closed ↔
       0 < returned σ ∨ caller σ = AtBodyClose ∨ caller σ = AtWait)
  ∧ (panicked σ = true → caller σ = AtCloseDone).

End Retry.

(** ** Instances to run the definitions on *)

(** Modelled from the spec: [newExponentialBackOff] and
    [newAggressiveExponentialBackOff] are in a file of the package that is
    not at hand. By section 4.1 a policy is an exponential backoff with a
    largest interval and a ceiling on the elapsed time, after which it
    signals Stop; the aggressive one starts from a larger interval and
    runs for longer; [Reset] returns a policy to its initial state. The
    specification gives no constants: the ones below are an example. *)
Record policy := {
  interval : Z;
  elapsed : Z;
  InitialInterval : Z;
  MaxInterval : Z;
  MaxElapsedTime : Z;
}.

Definition policy_next (p : policy) : Z * policy :=
  if bool_decide (MaxElapsedTime p < elapsed p)%Z then (Stop_duration, p)
  else (interval p,
        {| interval := Z.min (2 * interval p) (MaxInterval p);
           elapsed := elapsed p + interval p;
           InitialInterval := InitialInterval p;
           MaxInterval := MaxInterval p;
           MaxElapsedTime := MaxElapsedTime p |}).

Definition policy_reset (p : policy) : policy :=
  {| interval := InitialInterval p; elapsed := 0;
     InitialInterval := InitialInterval p;
     MaxInterval := MaxInterval p;
     MaxElapsedTime := MaxElapsedTime p |}.

#[export] Instance policy_BackOff : BackOff policy :=
  {| NextBackOff := policy_next; Reset := policy_reset |}.

Definition second : Z := 1000000000.

Definition newExponentialBackOff : policy :=
  {| interval := 5 * second; elapsed := 0; InitialInterval := 5 * second;
     MaxInterval := 320 * second; MaxElapsedTime := 900 * second |}.

Definition newAggressiveExponentialBackOff : policy :=
  {| interval := 60 * second; elapsed := 0; InitialInterval := 60 * second;
     MaxInterval := 960 * second; MaxElapsedTime := 7200 * second |}.

(** A world given by the list of the results of [client.Do], each
    response with the lines of its body; past the end of a body the read
    fails, past the end of the list the transport fails. *)
Definition scripted (script : list (do_result * list string)) : World :=
  {| Do n := default (DoError (TransportError "connection refused")) (fst <$> script !! n);
     readNext b k :=
       match script !! b with
       | Some (_, lines) => default ReadError (Token <$> lines !! k)
       | None => ReadError
       end |}.

(** [{"k":v}] *)
Definition object1 (k v : string) : string :=
  "{" ++ quoted k ++ ":" ++ v ++ "}".

(** [{"k1":v1,"k2":v2}] *)
Definition object2 (k1 v1 k2 v2 : string) : string :=
  "{" ++ quoted k1 ++ ":" ++ v1 ++ "," ++ quoted k2 ++ ":" ++ v2 ++ "}".

(** Tokens the properties are run on. *)

(** [{"event":1,"delete":{"status":{"id":"1"}}}] *)
Definition deletion_token : string :=
  object2 "event" "1" "delete" (object1 "status" (object1 "id" (quoted "1"))).

(** [{"unrecognized_key":true}] *)
Definition unrecognized_token : string := object1 "unrecognized_key" "true".

(** [{"retweet_count":0,"id":7}]: the [id] of a [Tweet] is a string. *)
Definition mistyped_tweet_token : string := object2 "retweet_count" "0" "id" "7".

(** [{"retweet_count":1e999}]: a number no [float64] holds. *)
Definition huge_number_token : string := object1 "retweet_count" "1e999".

(** [n] copies of [s]. *)
Definition copies (n : N) (s : string) : string :=
  N.iter n (λ acc, s ++ acc) EmptyString.

(** [{"k":[[...]]}] with [n] arrays one inside the other: [n + 1] deep. *)
Definition nested_token (n : N) : string :=
  "{" ++ quoted "k" ++ ":" ++ copies n "[" ++ copies n "]" ++ "}".

(** An object whose one name is the byte 255, which begins no
    well-formed UTF-8 sequence. *)
Definition ill_formed_name_token : string :=
  object1 (String "255"%char EmptyString) "true".

(** U+FFFD in UTF-8. *)
Definition replacement_character : string :=
  String "239"%char (String "191"%char (String "189"%char EmptyString)).

(** Worlds the properties are run on. *)

(** The transport fails at every call. *)
Definition transport_down : World := scripted [].

(** A 503, then a 200 whose body ends at once. *)
Definition overloaded_then_streaming : World :=
  scripted [(Response 503, []); (Response 200, [])].

(** A 404. *)
Definition not_found : World := scripted [(Response 404, [])].

(** A 200 whose body holds a keep-alive, a token, a keep-alive and a
    token. *)
Definition streaming : World :=
  scripted [(Response 200,
             [EmptyString; unrecognized_token; EmptyString; deletion_token])].

(** The stream that [newStream] makes, with the two policies above. *)
Definition start : @state policy policy :=
  newStream newExponentialBackOff newAggressiveExponentialBackOff.

(** The state a schedule leads to from [start]. *)
Definition after (W : World) (ls : list label) : option (@state policy policy) :=
  exec (D := spec_declarations) ls start.

Definition state_after (W : World) (ls : list label) : @state policy policy :=
  default start (after W ls).

(** ** Proof automation *)

(** Every body obtained is closed or has its Close deferred. *)
Ltac held_tac Hheld :=
  let b := fresh "b" in let st := fresh "st" in
  let Hb := fresh "Hb" in let Hd := fresh "Hd" in
  let Hx := fresh "Hx" in
  intros b st Hb Hd;
  pose proof (Hheld b st) as Hx;
  rewrite ?elem_of_union, ?elem_of_singleton, ?elem_of_cons;
  try rewrite elem_of_cons in Hx;
  first
    [ tauto
    | match type of Hb with
      | _ < S ?n =>
        destruct (decide (b = n)) as [->|];
        [ first [congruence | intuition congruence]
        | specialize (Hx ltac:(lia) Hd); tauto ]
      end ].

Ltac inv_tac Hheld Hdone :=
  cbn; repeat split;
  first [ done | apply Hdone | held_tac Hheld
        | clear Hheld; intuition (first [discriminate | lia | congruence]) ].

Ltac rcv_same Hsame :=
  let Heq := fresh "Heq" in
  split; [first [done | cbn; lia]|];
  intros Heq; cbn in Heq;
  first
    [ exfalso; lia
    | destruct (Hsame Heq) as (Hr & Hne & Htok & rest & Heqn & Hlen & Hin & Hout);
      cbn in *;
      (split; [done|]); (split; [done|]); (split; [done|]);
      exists rest; (split; [done|]); (split; [done|]);
      split; intros; first [done | by apply Hin | by apply Hout | discriminate] ].

Ltac ret_same Hsame :=
  let Heq := fresh "Heq" in
  split; [first [done | cbn; lia]|];
  intros Heq; cbn in Heq;
  first
    [ exfalso; lia
    | destruct (Hsame Heq) as (Hafter & Hk & Hrcv); cbn in *;
      first [ done | discriminate ] ].


(** ** What the further properties are stated with *)

(** The steps of the goroutine, the consumer's receive being one with
    the send it completes; the others are the caller's. *)
Definition own (l : label) : bool :=
  match l with
  | Run | Receive | OnDone => true
  | Call | Stopper => false
  end.

Definition is_call (l : label) : bool :=
  match l with Call => true | _ => false end.

(** How many steps the goroutine is from [Exited] at most, once [done] is
    closed, but for the deferred closes. *)
Definition distance (p : position) : nat :=
  match p with
  | Exited => 0
  | CloseMessages => 1
  | GroupDone => 2
  | Deferred => 3
  | LoopHead => 4
  | SendError _ => 4
  | Sleep => 5
  | CloseBody => 6
  | ResetBackOffs => 7
  | ReceiveHead => 8
  | Select _ => 9
  | ReadNext => 10
  | Connect => 12
  end.

(** The messages the goroutine can still send once [done] is closed. *)
Definition in_flight (p : position) : nat :=
  match p with
  | Connect | SendError _ | ReadNext | Select _ => 1
  | _ => 0
  end.

Definition at_connect (p : position) : nat :=
  match p with Connect => 1 | _ => 0 end.

(** The goroutine holds an open body. *)
Definition holding (p : position) : bool :=
  match p with
  | ReceiveHead | ReadNext | Select _ | ResetBackOffs | CloseBody => true
  | _ => false
  end.


Section RetryMore.
Context {D : Declarations} {W : World} {E A : Type} {BE : BackOff E} {BA : BackOff A}.

Definition rank (σ : @state E A) : nat :=
  if panicked σ then 0
  else S (distance (pc (task σ)) + length (deferred (task σ))).

(** The calls of [Stop] made: the ones that returned and the one under
    way. *)
Definition calls (σ : @state E A) : nat :=
  returned σ + match caller σ with Idle => 0 | _ => 1 end.

Definition is_response (r : do_result) : bool :=
  match r with Response _ => true | DoError _ => false end.

(** The bodies of the responses among the first [n] results of
    [client.Do], the last one first. *)
Definition responses (n : nat) : list nat :=
  List.filter (λ b, is_response (Do b)) (rev (seq 0 n)).


(** [m] is the message of a line read from a body that is not a
    keep-alive. *)
Definition from_token (m : Message) : Prop :=
  ∃ b k data,
    readNext b k = Token data ∧ String.length data ≠ 0%nat ∧ m = getMessage data.

(** What holds of the bodies in every state the program gets to: a body
    obtained is closed, or is the one of the attempt under way; in the
    loop the deferred closes are those of all the responses obtained. *)
Definition bodies_invariant (σ : @state E A) : Prop :=
  (∀ b status, (b < attempts (task σ))%nat → Do b = Response status →
     b ∈ closed σ ∨ (b = resp (task σ) ∧ holding (pc (task σ)) = true))
  ∧ (returning (pc (task σ)) = false →
       deferred (task σ) = responses (attempts (task σ))).

(** What holds of the calls of [Stop] in every state the program gets
    to. *)
Definition Stop_invariant (σ : @state E A) : Prop :=
  ((0 < returned σ)%nat → group (stream σ) = 0%nat)
  ∧ (panicked σ = true → (0 < returned σ)%nat ∧ caller σ = AtCloseDone).


(** What holds of the messages received: they are messages of lines read,
    but for the error of the transport, which comes last. *)
Definition received_invariant (σ : @state E A) : Prop :=
  (∀ m, pc (task σ) = Select m → from_token m)
  ∧ (∀ err, pc (task σ) = SendError err →
       Do (pred (attempts (task σ))) = DoError err)
  ∧ ∃ l tail,
      received σ = (l ++ tail)%list
      ∧ Forall from_token l
      ∧ (tail = []
         ∨ ∃ err, tail = [MError err]
                  ∧ Do (pred (attempts (task σ))) = DoError err
                  ∧ returning (pc (task σ)) = true).

(** The goroutine is in [receive], or back from it and about to reset
    the policies. *)
Definition before_reset (p : position) : bool :=
  match p with
  | ReceiveHead | ReadNext | Select _ | ResetBackOffs => true
  | _ => false
  end.

(** What the switch of [retry] makes of [wait] and of the two policies
    over the first [n] calls of [client.Do], from the policies the
    goroutine was started with: a 200 resets both once [receive] is back,
    a 503 moves the normal policy on and a 420 or a 429 the aggressive
    one, and [wait] is the last duration a policy gave. *)
Fixpoint backoffs (exp : E) (agg : A) (n : nat) : Z * E * A :=
  match n with
  | O => (0%Z, exp, agg)
  | S n =>
    let '(w, e, a) := backoffs exp agg n in
    match Do n with
    | DoError _ => (w, e, a)
    | Response status =>
      if bool_decide (status = 200)%Z then (w, Reset e, Reset a)
      else if bool_decide (status = 503)%Z then
        let '(w', e') := NextBackOff e in (w', e', a)
      else if bool_decide (status = 420 ∨ status = 429)%Z then
        let '(w', a') := NextBackOff a in (w', e, a')
      else (w, e, a)
    end
  end.

(** The calls of [client.Do] whose effect on the policies is made. *)
Definition settled (σ : @state E A) : nat :=
  if before_reset (pc (task σ)) then pred (attempts (task σ)) else attempts (task σ).

Definition backoffs_invariant (exp : E) (agg : A) (σ : @state E A) : Prop :=
  (before_reset (pc (task σ)) = true →
     (0 < attempts (task σ))%nat ∧ Do (pred (attempts (task σ))) = Response 200)
  ∧ (wait (task σ), expBackOff (task σ), aggExpBackOff (task σ))
    = backoffs exp agg (settled σ)
  ∧ Forall (λ d, ∃ k, (k ≤ attempts (task σ))%nat ∧ d = (backoffs exp agg k).1.1)
           (slept σ).
(** A step that waits for nothing outside the program: every step but
    the call of [client.Do], which returns when the server answers or
    the transport fails, and the read of a body that is open, which
    returns when the server sends or when the body is closed. *)
Definition unblocked (l : label) (σ : @state E A) : bool :=
  match l, pc (task σ) with
  | Run, Connect => false
  | Run, ReadNext => bool_decide (resp (task σ) ∈ closed σ)
  | _, _ => true
  end.

(** Every step of the schedule is unblocked: the schedule makes no call
    of [client.Do] and reads from closed bodies only. *)
Fixpoint unblocked_schedule (ls : list label) (σ : @state E A) : bool :=
  match ls with
  | [] => true
  | l :: ls =>
    unblocked l σ
    && match step l σ with
       | Some σ' => unblocked_schedule ls σ'
       | None => true
       end
  end.

Definition close_invariant (σ : @state E A) : Prop :=
  (holding (pc (task σ)) = true → body (stream σ) = Some (resp (task σ)))
  ∧ (caller σ = AtWait → pc (task σ) = ReadNext → resp (task σ) ∈ closed σ).

End RetryMore.

(** The cases of a step: the hypothesis [Hs] says that label [l] leads
    from a state, taken apart into [dn ms gr bd], [p _ e a r df n k] and
    [c], to another; [tac] closes each case. *)
Ltac step_split Hs l dn ms gr bd p e a r df n k c tac :=
  destruct l; cbn in Hs;
  [ unfold retry in Hs; cbn in Hs; destruct p; simplify_eq/=;
    [ try destruct (stopped dn) eqn:?; tac
    | unfold connect; cbn; destruct (Do n) as [?|?] eqn:?; cbn;
      [ tac
      | repeat case_bool_decide; cbn;
        try destruct (NextBackOff e) eqn:?;
        try destruct (NextBackOff a) eqn:?; cbn; tac ]
    | try destruct (stopped dn) eqn:?; tac
    | unfold read; cbn; destruct (readNext r k) eqn:?; cbn;
      [try case_bool_decide|]; tac
    | tac
    | try case_bool_decide; tac
    | tac
    | unfold run_deferred; cbn; destruct df; tac
    | unfold group_done; cbn; try destruct gr; tac
    | unfold close_Messages; cbn; try destruct ms; tac ]
  | unfold consume in Hs; cbn in Hs; destruct p; try destruct ms;
    simplify_eq/=; tac
  | unfold on_done in Hs; cbn in Hs; destruct p; try destruct dn;
    simplify_eq/=; tac
  | destruct c; simplify_eq/=; tac
  | unfold Stop in Hs; cbn in Hs; destruct c; simplify_eq/=;
    [ try destruct dn; simplify_eq/=; tac
    | destruct bd; tac
    | try destruct gr; simplify_eq/=; tac ] ].

(** States the further properties are run on. *)

(** In the world [streaming]: the goroutine is sending the first message,
    and a call of [Stop] has closed [done]. *)
Definition cancelled_mid_stream : @state policy policy :=
  state_after streaming [Run; Run; Run; Run; Run; Run; Call; Stopper].

(** From there, the goroutine has taken [done] in the select of
    [receive] and gone on. *)
Definition cancelled_mid_stream_later : @state policy policy :=
  state_after streaming
    [Run; Run; Run; Run; Run; Run; Call; Stopper; OnDone; Run; Run].

(** From there instead, the consumer has received the message and the
    goroutine has gone on. *)
Definition cancelled_mid_stream_received : @state policy policy :=
  state_after streaming
    [Run; Run; Run; Run; Run; Run; Call; Stopper; Receive; Run; Run; Run; Run].

(** In the world [streaming]: the goroutine is at its first read, and a
    call of [Stop] has closed [done] and the body and is at
    [s.group.Wait()]. *)
Definition waiting_at_read : @state policy policy :=
  state_after streaming [Run; Run; Run; Call; Stopper; Stopper].


(** In the world [streaming]: the two messages are received, the body
    has ended, and the goroutine has slept and is at the head of the
    loop. *)
Definition stream_ended : @state policy policy :=
  state_after streaming
    [Run; Run; Run; Run; Run; Run; Receive; Run; Run; Run; Run; Receive;
     Run; Run; Run; Run; Run].

(** In the world [overloaded_then_streaming]: the 503 and its wait, the
    200 whose body ends at once and the wait after it. *)
Definition overloaded_twice_slept : @state policy policy :=
  state_after overloaded_then_streaming
    [Run; Run; Run; Run; Run; Run; Run; Run; Run; Run; Run].

(** * Properties *)

(** ** The classifier *)

Section ClassifierProperties.
Context {D : Declarations}.

Lemma decodeMessage_Classify token data :
  decodeMessage token data = Classify token data.
Proof.
  unfold decodeMessage, Classify, first_match, priority, deliver; cbn [List.find fst snd].
  repeat (destruct (hasPath data _); [cbn; by destruct (unmarshal _ _) | ]).
  reflexivity.
Qed.

(** The first entry of a table that passes a test is the one [find]
    returns. *)
Lemma find_first {X} (p : X → bool) (l : list X) i x :
  l !! i = Some x → p x = true →
  (∀ j y, j < i → l !! j = Some y → p y = false) →
  List.find p l = Some x.
Proof.
  revert i. induction l as [|a l IH]; intros i Hi Hp Hbefore; [done|].
  destruct i as [|i]; cbn in *.
  - injection Hi as ->. by rewrite Hp.
  - rewrite (Hbefore 0 a) by (done || lia).
    apply (IH i); [done..|].
    intros j y Hj Hy. apply (Hbefore (S j) y); [lia | done].
Qed.

Lemma find_none_all {X} (p : X → bool) (l : list X) :
  List.find p l = None → ∀ x, x ∈ l → p x = false.
Proof.
  intros Hf x Hx. apply list_elem_of_In in Hx.
  by apply (find_none p l Hf).
Qed.

Lemma getMessage_unmarshalled token data :
  unmarshal token TMapAny = (data, None) →
  getMessage token = decodeMessage token data.
Proof. unfold getMessage. by intros ->. Qed.

Lemma getMessage_unmarshal_error token data e :
  unmarshal token TMapAny = (data, Some e) →
  getMessage token = MError e.
Proof. unfold getMessage. by intros ->. Qed.

Lemma shape_of_deliver s token : shape_of (deliver s token) = Some s.
Proof. unfold deliver. by destruct s. Qed.

Lemma get_project (t : gotype) (v : goval) (path : list string) (x : goval) :
  project v path = Some x → get t v path = x.
Proof.
  unfold get. revert t v. induction path as [|name path IH]; intros t v Hp; cbn in *.
  - by injection Hp as ->.
  - destruct v; try done. cbn in Hp.
    destruct (fields !! name) as [y|] eqn:Hy; [|done]. cbn in Hp.
    unfold select at 2; cbn. rewrite Hy; cbn.
    by apply IH.
Qed.

(** C2, as the code has it. For a token that [json.Unmarshal] turns into
    the data map without error, the keys are looked for in the order of
    the table [priority] (retweet_count, direct_message, delete,
    scrub_geo, limit, status_withheld, user_withheld, disconnect, warning,
    friends, event, matching_rules); the first key of the table that the
    map has selects the one variant returned, whatever other keys are
    present. The variant of an envelope holds the value that the decoded
    envelope has under its payload field, and the variant of a shape that
    is no envelope holds the decoded struct itself. *)
Theorem getMessage_first_match token data i key s :
  unmarshal token TMapAny = (data, None) →
  priority !! i = Some (key, s) →
  hasPath data key = true →
  (∀ j key' s', j < i → priority !! j = Some (key', s') → hasPath data key' = false) →
  priority.*1 =
    ["retweet_count"; "direct_message"; "delete"; "scrub_geo"; "limit";
     "status_withheld"; "user_withheld"; "disconnect"; "warning";
     "friends"; "event"; "matching_rules"]
  ∧ getMessage token
    = variant s (get (target s).1 (unmarshal token (target s).1).1 (target s).2)
  ∧ shape_of (getMessage token) = Some s
  ∧ decodeMessage token data = getMessage token
  ∧ (∀ payload,
       project (unmarshal token (target s).1).1 (target s).2 = Some payload →
       getMessage token = variant s payload)
  ∧ (s ∈ [Tweet_shape; FriendsList_shape; Event_shape; StreamEnvelope_shape] →
     getMessage token = variant s (unmarshal token (target s).1).1).
Proof.
  intros Hdata Hi Hkey Hbefore.
  assert (Hfirst : first_match data = Some s).
  { unfold first_match.
    rewrite (find_first (λ e : string * shape, hasPath data e.1) priority i (key, s));
      [done..|].
    intros j [key' s'] Hj Hy. by apply (Hbefore j key' s'). }
  assert (Hmsg : getMessage token = deliver s token).
  { rewrite (getMessage_unmarshalled _ _ Hdata), decodeMessage_Classify.
    unfold Classify. by rewrite Hfirst. }
  assert (Hget : getMessage token
            = variant s (get (target s).1 (unmarshal token (target s).1).1 (target s).2)).
  { rewrite Hmsg. unfold deliver. by destruct (target s). }
  split; [reflexivity|]. split; [done|]. split; [|split; [|split]].
  - rewrite Hmsg. apply shape_of_deliver.
  - by rewrite (getMessage_unmarshalled _ _ Hdata).
  - intros payload Hp. rewrite Hget. f_equal. by apply get_project.
  - intros Hs. rewrite Hget. f_equal. apply get_project.
    rewrite !elem_of_cons, elem_of_nil in Hs.
    by destruct Hs as [->|[->|[->|[->|[]]]]].
Qed.

(** What [json.Unmarshal] into the data map returns, by the JSON value
    the token holds. *)
Lemma unmarshal_data token :
  unmarshal token TMapAny =
    match Scanner.parse token with
    | None => (VNil, Some SyntaxError)
    | Some JNull => (VNil, None)
    | Some (JObject ms) => any (JObject ms)
    | Some j => (VNil, Some (UnmarshalTypeError (kind j) (type_name TMapAny)))
    end.
Proof.
  unfold unmarshal, Unmarshal.
  destruct (Scanner.parse token) as [[]|]; reflexivity.
Qed.

(** C3, as the code has it. [getMessage] returns one result for every
    token: the error of [json.Unmarshal] when unmarshalling the token
    into the data map fails, which is when the token is not valid JSON
    (arrays and objects open more than 10000 deep are not), when it is
    an array, a string, a number or a boolean, and when it is an object
    holding a number that no [float64] holds; the variant of the first
    key of the table that is present when there is one; and otherwise
    the data map as it was unmarshalled, its names and strings coerced
    to well-formed UTF-8. The token [null] unmarshals into the nil map
    and is returned as such. *)
Theorem getMessage_total token :
  match Scanner.parse token with
  | None => getMessage token = MError SyntaxError
  | Some JNull => getMessage token = MData VNil
  | Some (JObject ms) =>
    match any (JObject ms) with
    | (_, Some e) => getMessage token = MError e
    | (data, None) =>
      match first_match data with
      | Some s => getMessage token = deliver s token
      | None =>
        getMessage token = MData data
        ∧ ∀ key s, (key, s) ∈ priority → hasPath data key = false
      end
    end
  | Some j =>
    getMessage token = MError (UnmarshalTypeError (kind j) (type_name TMapAny))
  end.
Proof.
  pose proof (unmarshal_data token) as Hu.
  destruct (Scanner.parse token) as [j|] eqn:Hp.
  - destruct j; try (by rewrite (getMessage_unmarshal_error _ _ _ Hu)).
    + by rewrite (getMessage_unmarshalled _ _ Hu).
    + destruct (any (JObject members)) as [data [e|]].
      * by rewrite (getMessage_unmarshal_error _ _ _ Hu).
      * rewrite (getMessage_unmarshalled _ _ Hu), decodeMessage_Classify.
        unfold Classify. destruct (first_match data) as [s|] eqn:Hf; [done|].
        split; [done|]. intros key s Hin.
        unfold first_match in Hf.
        destruct (List.find _ priority) eqn:Hfind; [done|].
        apply (find_none_all _ _ Hfind (key, s) Hin).
  - by rewrite (getMessage_unmarshal_error _ _ _ Hu).
Qed.

(** C10. A token that is valid JSON and holds an array, a string, a
    number or a boolean makes [getMessage] return the type error of
    [json.Unmarshal]; a token that holds [null] unmarshals without error
    into the nil map, which has no key, and is returned as the data
    map. *)
Theorem getMessage_not_an_object token j :
  Scanner.parse token = Some j →
  (∀ ms, j ≠ JObject ms) →
  match j with
  | JNull => getMessage token = MData VNil ∧ ∀ key, hasPath VNil key = false
  | _ => getMessage token = MError (UnmarshalTypeError (kind j) (type_name TMapAny))
         ∧ kind j ∈ ["array"; "string"; "number"; "bool"]
  end.
Proof.
  intros Hp Hobj. pose proof (unmarshal_data token) as Hu.
  rewrite Hp in Hu.
  destruct j; cbn; try (by destruct (Hobj members)).
  - split; [|done]. by rewrite (getMessage_unmarshalled _ _ Hu).
  - split; [by rewrite (getMessage_unmarshal_error _ _ _ Hu)|].
    rewrite !elem_of_cons. tauto.
  - split; [by rewrite (getMessage_unmarshal_error _ _ _ Hu)|].
    rewrite !elem_of_cons. tauto.
  - split; [by rewrite (getMessage_unmarshal_error _ _ _ Hu)|].
    rewrite !elem_of_cons. tauto.
  - split; [by rewrite (getMessage_unmarshal_error _ _ _ Hu)|].
    rewrite !elem_of_cons. tauto.
Qed.

(** C9, as the code has it. When a key of the table is present the
    variant of its shape is returned, decoded as far as the decoding
    went: the error that [json.Unmarshal] into the shape returns is not
    looked at, and [getMessage] returns no error. *)
Theorem getMessage_drops_decode_error token data s :
  unmarshal token TMapAny = (data, None) →
  first_match data = Some s →
  getMessage token
    = variant s (get (target s).1 (unmarshal token (target s).1).1 (target s).2)
  ∧ ∀ e, getMessage token ≠ MError e.
Proof.
  intros Hdata Hfirst.
  assert (Hmsg : getMessage token = deliver s token).
  { rewrite (getMessage_unmarshalled _ _ Hdata), decodeMessage_Classify.
    unfold Classify. by rewrite Hfirst. }
  rewrite Hmsg. unfold deliver. destruct (target s) as [t path]. cbn.
  split; [done|]. by destruct s.
Qed.

End ClassifierProperties.

(** *** The classifier on tokens *)

Section ClassifierExamples.
#[local] Existing Instance spec_declarations.

Example getMessage_deletion :
getMessage deletion_token
= MStatusDeletion (VPtr (VStruct {["ID" := VString "1"]})).
Proof. vm_compute. reflexivity. Qed.

Example getMessage_unrecognized :
∃ m, getMessage unrecognized_token = MData (VMap m)
     ∧ m !! "unrecognized_key" = Some (VBool true).
Proof. eexists. split; vm_compute; reflexivity. Qed.

Example getMessage_malformed :
getMessage "{not json" = MError SyntaxError.
Proof. vm_compute. reflexivity. Qed.

Example getMessage_huge_number :
getMessage huge_number_token
= MError (UnmarshalTypeError "number 1e999" "float64").
Proof. vm_compute. reflexivity. Qed.

Lemma getMessage_first_match_witness :
unmarshal deletion_token TMapAny = ((unmarshal deletion_token TMapAny).1, None)
∧ hasPath (unmarshal deletion_token TMapAny).1 "event" = true
∧ hasPath (unmarshal deletion_token TMapAny).1 "delete" = true
∧ project (unmarshal deletion_token statusDeletionNotice).1 ["Delete"; "StatusDeletion"]
  = Some (VPtr (VStruct {["ID" := VString "1"]}))
∧ getMessage deletion_token
  = MStatusDeletion (VPtr (VStruct {["ID" := VString "1"]})).
Proof.
split; [vm_compute; reflexivity|].
split; [vm_compute; reflexivity|].
split; [vm_compute; reflexivity|].
split; [vm_compute; reflexivity|].
destruct (getMessage_first_match deletion_token
            (unmarshal deletion_token TMapAny).1 2 "delete"
            StatusDeletionNotice_shape) as (_ & _ & _ & _ & Hm & _).
- vm_compute; reflexivity.
- reflexivity.
- vm_compute; reflexivity.
- intros j key' s' Hj Hl.
  destruct j as [|[|j]]; [| |lia]; injection Hl as <- <-; vm_compute; reflexivity.
- apply (Hm (VPtr (VStruct {["ID" := VString "1"]}))). vm_compute; reflexivity.
Defined.

(** The token [{"retweet_count":1e999}] parses as a JSON object and has
  the first key of the table among its names, and [getMessage] returns
  the error of [json.Unmarshal], not a tweet: C2 as it is worded fails
  there. *)
Lemma getMessage_object_with_key_is_error :
¬ (∀ token ms i key s,
     Scanner.parse token = Some (JObject ms) →
     priority !! i = Some (key, s) →
     key ∈ ms.*1 →
     (∀ j key' s', j < i → priority !! j = Some (key', s') → key' ∉ ms.*1) →
     shape_of (getMessage token) = Some s).
Proof.
intros Hclaim.
pose proof (Hclaim huge_number_token [("retweet_count", JNumber "1e999")]
              0 "retweet_count" Tweet_shape) as Hs.
assert (shape_of (getMessage huge_number_token) = None) as Hnone
  by (vm_compute; reflexivity).
rewrite Hs in Hnone; [discriminate|..].
- vm_compute; reflexivity.
- reflexivity.
- cbn. apply list_elem_of_here.
- intros j key' s' Hj. lia.
Qed.

(** The token [null] is not a JSON object, and [getMessage] returns no
  error for it: C3 as it is worded fails there. *)
Lemma getMessage_null_is_no_error :
¬ (∀ token,
     (∀ ms, Scanner.parse token ≠ Some (JObject ms)) →
     ∃ e, getMessage token = MError e).
Proof.
intros Hclaim. destruct (Hclaim "null") as [e He].
- intros ms. vm_compute. discriminate.
- vm_compute in He. discriminate.
Qed.

Lemma getMessage_not_an_object_witness :
Scanner.parse "[1]" = Some (JArray [JNumber "1"])
∧ getMessage "[1]"
  = MError (UnmarshalTypeError "array" "map[string]interface {}").
Proof.
split; [vm_compute; reflexivity|].
apply (getMessage_not_an_object "[1]" (JArray [JNumber "1"])).
- vm_compute; reflexivity.
- intros ms; discriminate.
Defined.

Example getMessage_null :
getMessage "null" = MData VNil.
Proof. vm_compute. reflexivity. Qed.

(** An object and 9999 arrays inside it are 10000 deep, which is valid;
  one array more is a syntax error. *)
Example getMessage_deepest :
match getMessage (nested_token 9999) with MData (VMap _) => True | _ => False end.
Proof. vm_compute. exact I. Qed.

Example getMessage_too_deep :
getMessage (nested_token 10000) = MError SyntaxError.
Proof. vm_compute. reflexivity. Qed.

(** A name that is not well-formed UTF-8 is in the data map with U+FFFD
  for each byte that begins no well-formed sequence. *)
Example getMessage_ill_formed_name :
∃ m, getMessage ill_formed_name_token = MData (VMap m)
     ∧ m !! replacement_character = Some (VBool true)
     ∧ m !! String "255"%char EmptyString = None.
Proof. eexists. split; [|split]; vm_compute; reflexivity. Qed.

(** The token [{"retweet_count":0,"id":7}] selects the shape of a tweet,
  decoding it into a [Tweet] fails on [id], and [getMessage] returns
  the tweet all the same: C9 as it is worded fails there. *)
Lemma getMessage_decode_error_not_reported :
¬ (∀ token data s e,
     unmarshal token TMapAny = (data, None) →
     first_match data = Some s →
     (unmarshal token (target s).1).2 = Some e →
     ∃ e', getMessage token = MError e').
Proof.
intros Hclaim.
destruct (Hclaim mistyped_tweet_token (unmarshal mistyped_tweet_token TMapAny).1
            Tweet_shape (UnmarshalTypeError "number" "string")) as [e He].
- vm_compute; reflexivity.
- vm_compute; reflexivity.
- vm_compute; reflexivity.
- vm_compute in He. discriminate.
Qed.

Lemma getMessage_drops_decode_error_witness :
(unmarshal mistyped_tweet_token (TNamed "Tweet")).2
  = Some (UnmarshalTypeError "number" "string")
∧ getMessage mistyped_tweet_token
  = MTweet (VStruct {["ID" := VString EmptyString]}).
Proof.
split; [vm_compute; reflexivity|].
destruct (getMessage_drops_decode_error
            mistyped_tweet_token (unmarshal mistyped_tweet_token TMapAny).1
            Tweet_shape) as [Hm _].
- vm_compute; reflexivity.
- vm_compute; reflexivity.
- rewrite Hm. vm_compute. reflexivity.
Defined.

End ClassifierExamples.

(** ** The stream *)

Section RetryProperties.
Context {D : Declarations} {W : World} {E A : Type} {BE : BackOff E} {BA : BackOff A}.
Implicit Types σ : @state E A.
#[local] Open Scope list_scope.
#[local] Open Scope nat_scope.

Lemma exec_app ls1 ls2 σ :
  exec (ls1 ++ ls2) σ = exec ls1 σ ≫= exec ls2.
Proof.
  revert σ. induction ls1 as [|l ls1 IH]; intros σ; cbn; [done|].
  destruct (step l σ); cbn; [apply IH | done].
Qed.

Lemma step_invariant l σ σ' :
  invariant σ → step l σ = Some σ' → invariant σ'.
Proof.
  unfold invariant, step.
  destruct σ as [[dn ms gr bd] [p w e a r df n k] c ret pan cl rcv sl cls]; cbn.
  intros (Hg & Hm & Hc & Hheld & Hdef & Hdone & Hpan) Hs.
  destruct pan; [done|].
  destruct l; cbn in Hs.
  - unfold retry in Hs; cbn in Hs. destruct p; simplify_eq/=.
    + destruct (stopped dn); inv_tac Hheld Hdone.
    + unfold connect; cbn. destruct (Do n) as [err|status] eqn:HDo; cbn.
      { inv_tac Hheld Hdone. }
      repeat case_bool_decide; cbn;
        try destruct (NextBackOff e); try destruct (NextBackOff a);
        inv_tac Hheld Hdone.
    + destruct (stopped dn); inv_tac Hheld Hdone.
    + unfold read; cbn. destruct (readNext r k); cbn; [case_bool_decide|];
        inv_tac Hheld Hdone.
    + inv_tac Hheld Hdone.
    + case_bool_decide; inv_tac Hheld Hdone.
    + inv_tac Hheld Hdone.
    + unfold run_deferred; cbn. destruct df as [|b df]; inv_tac Hheld Hdone.
    + inv_tac Hheld Hdone.
    + inv_tac Hheld Hdone.
  - unfold consume in Hs; cbn in Hs.
    destruct p; simplify_eq/=; inv_tac Hheld Hdone.
  - unfold on_done in Hs; cbn in Hs.
    destruct p, dn; simplify_eq/=; inv_tac Hheld Hdone.
  - destruct c; simplify_eq/=; inv_tac Hheld Hdone.
  - unfold Stop in Hs; cbn in Hs.
    destruct c; simplify_eq/=.
    + destruct dn; simplify_eq/=; inv_tac Hheld Hdone.
    + destruct bd; inv_tac Hheld Hdone.
    + destruct p; simplify_eq/=; inv_tac Hheld Hdone.
Qed.

Lemma exec_invariant ls σ σ' :
  invariant σ → exec ls σ = Some σ' → invariant σ'.
Proof.
  revert σ. induction ls as [|l ls IH]; intros σ Hinv Hex; cbn in Hex.
  - by injection Hex as <-.
  - destruct (step l σ) as [σ1|] eqn:Hs; [|done].
    apply (IH σ1); [by apply (step_invariant l σ) | done].
Qed.

Lemma newStream_invariant (exp : E) (agg : A) : invariant (newStream exp agg).
Proof.
  unfold invariant; cbn. repeat split; try done; try lia.
  intuition (first [discriminate | lia]).
Qed.

Lemma reachable_invariant exp agg σ : reachable exp agg σ → invariant σ.
Proof.
  intros [ls Hex]. apply (exec_invariant ls _ _ (newStream_invariant exp agg) Hex).
Qed.

Lemma reachable_exec exp agg ls σ σ' :
  reachable exp agg σ → exec ls σ = Some σ' → reachable exp agg σ'.
Proof.
  intros [ls0 Hex0] Hex. exists (ls0 ++ ls).
  rewrite exec_app, Hex0. exact Hex.
Qed.

(** *** Returning *)

Lemma returning_step l σ σ' :
  returning (pc (task σ)) = true → step l σ = Some σ' →
  returning (pc (task σ')) = true
  ∧ attempts (task σ') = attempts (task σ)
  ∧ slept σ' = slept σ
  ∧ received σ' = received σ.
Proof.
  unfold step.
  destruct σ as [[dn ms gr bd] [p w e a r df n k] c ret pan cl rcv sl cls]; cbn.
  intros Hret Hs. destruct pan; [done|].
  destruct l; cbn in Hs.
  - unfold retry in Hs; cbn in Hs. destruct p; simplify_eq/=.
    + unfold run_deferred; cbn. by destruct df.
    + unfold group_done; cbn. by destruct gr.
    + unfold close_Messages; cbn. by destruct ms.
  - unfold consume in Hs; cbn in Hs. destruct p; simplify_eq/=.
  - unfold on_done in Hs; cbn in Hs. destruct p, dn; simplify_eq/=.
  - destruct c; simplify_eq/=. done.
  - unfold Stop in Hs; cbn in Hs. destruct c; simplify_eq/=.
    + by destruct dn; simplify_eq/=.
    + by destruct bd.
    + by destruct gr; simplify_eq/=.
Qed.

Lemma returning_exec ls σ σ' :
  returning (pc (task σ)) = true → exec ls σ = Some σ' →
  returning (pc (task σ')) = true
  ∧ attempts (task σ') = attempts (task σ)
  ∧ slept σ' = slept σ
  ∧ received σ' = received σ.
Proof.
  revert σ. induction ls as [|l ls IH]; intros σ Hret Hex; cbn in Hex.
  - by injection Hex as <-.
  - destruct (step l σ) as [σ1|] eqn:Hs; [|done].
    destruct (returning_step l σ σ1 Hret Hs) as (Hret1 & Ha & Hsl & Hrc).
    destruct (IH σ1 Hret1 Hex) as (? & ? & ? & ?).
    repeat split; congruence.
Qed.

(** Run on its own, a returning goroutine gets to [Exited]: it closes
    the bodies whose Close is deferred, one a step, then leaves the wait
    group, then closes [Messages]. *)
Lemma returning_exits σ :
  invariant σ → panicked σ = false → returning (pc (task σ)) = true →
  ∃ n σ', exec (replicate n Run) σ = Some σ' ∧ pc (task σ') = Exited.
Proof.
  destruct σ as [[dn ms gr bd] [p w e a r df n k] c ret pan cl rcv sl cls].
  unfold invariant; cbn.
  intros (Hg & Hm & _ & _ & Hdef & _) -> Hret.
  destruct p; try done; simplify_eq/=.
  - exists (length df + 3). revert cl. induction df as [|b df IH]; intros cl.
    + eexists. split; [reflexivity | done].
    + cbn. unfold close_body, with_task; cbn. apply IH.
  - exists 2. eexists. split; [reflexivity | done].
  - exists 1. eexists. split; [reflexivity | done].
  - exists 0. eexists. split; [reflexivity | done].
Qed.

Lemma returning_finishes σ :
  invariant σ → panicked σ = false → returning (pc (task σ)) = true →
  finishes σ.
Proof.
  intros Hinv Hpan Hret. split; [done|]. split.
  - intros ls σ' Hex. by apply (returning_exec ls σ).
  - by apply returning_exits.
Qed.


Lemma exited_exec ls σ σ' :
  pc (task σ) = Exited → exec ls σ = Some σ' →
  pc (task σ') = Exited ∧ received σ' = received σ ∧ closes σ' = closes σ.
Proof.
  revert σ. induction ls as [|l ls IH]; intros σ Hpc Hex; cbn in Hex.
  - by injection Hex as <-.
  - destruct (step l σ) as [σ1|] eqn:Hs; [|done].
    assert (pc (task σ1) = Exited ∧ received σ1 = received σ ∧ closes σ1 = closes σ)
      as (Hpc1 & Hr1 & Hc1).
    { revert Hs. unfold step.
      destruct σ as [[dn ms gr bd] [p w e a r df n k] c ret pan cl rcv sl cls].
      cbn in *. subst p. destruct pan; [done|].
      destruct l; cbn; try done.
      - destruct c; intros; by simplify_eq/=.
      - unfold Stop; cbn. destruct c; try done.
        + destruct dn; intros; by simplify_eq/=.
        + destruct bd; intros; by simplify_eq/=.
        + destruct gr; intros; by simplify_eq/=. }
    destruct (IH σ1 Hpc1 Hex) as (? & ? & ?). repeat split; congruence.
Qed.

(** C6. In every state the program gets to, on every schedule and in
    every world: [close(s.Messages)] has run at most once, and has run once
    exactly when the goroutine has exited; it never meets a closed channel
    (the only panic is one of the caller of [Stop]); a goroutine that
    returns gets to run it; and once it has run, every response body the
    goroutine obtained is closed, the goroutine takes no step any more,
    and nothing more is received on [Messages]. *)
Theorem Messages_closed_once exp agg σ :
  reachable exp agg σ →
  closes σ ≤ 1
  ∧ (closes σ = 1 ↔ pc (task σ) = Exited)
  ∧ (closes σ = 1 ↔ Messages (stream σ) = Closed)
  ∧ (panicked σ = true → caller σ = AtCloseDone)
  ∧ (returning (pc (task σ)) = true → panicked σ = false →
       ∃ n σ', exec (replicate n Run) σ = Some σ' ∧ closes σ' = 1)
  ∧ (closes σ = 1 →
       (∀ b status, b < attempts (task σ) → Do b = Response status → b ∈ closed σ)
       ∧ step Run σ = None ∧ step Receive σ = None ∧ step OnDone σ = None
       ∧ ∀ ls σ', exec ls σ = Some σ' →
           received σ' = received σ ∧ closes σ' = 1 ∧ pc (task σ') = Exited).
Proof.
  intros Hreach. pose proof (reachable_invariant _ _ _ Hreach) as Hinv.
  destruct Hinv as (Hg & Hm & Hc & Hheld & Hdef & Hdone & Hpan).
  assert (Hiff : closes σ = 1 ↔ pc (task σ) = Exited).
  { rewrite Hc. destruct (pc (task σ)); split; congruence. }
  split; [rewrite Hc; destruct (pc (task σ)); lia|].
  split; [exact Hiff|].
  split; [rewrite Hc, Hm; destruct (pc (task σ)); split; congruence|].
  split; [exact Hpan|].
  split.
  { intros Hret Hnp.
    destruct (returning_exits σ (reachable_invariant _ _ _ Hreach) Hnp Hret)
      as (n & σ' & Hex & Hpc').
    exists n, σ'. split; [done|].
    destruct (reachable_invariant _ _ _ (reachable_exec _ _ _ _ _ Hreach Hex))
      as (_ & _ & Hc' & _).
    by rewrite Hc', Hpc'. }
  intros Hone. apply Hiff in Hone as Hpc. rewrite Hpc in Hdef.
  split; [|split; [|split; [|split]]].
  - intros b status Hb HDo. destruct (Hheld b status Hb HDo) as [|Hin]; [done|].
    rewrite Hdef in Hin. by apply elem_of_nil in Hin.
  - unfold step, retry. rewrite Hpc. by destruct (panicked σ).
  - unfold step, consume. rewrite Hpc. by destruct (panicked σ).
  - unfold step, on_done. rewrite Hpc. by destruct (panicked σ).
  - intros ls σ' Hex. destruct (exited_exec ls σ σ' Hpc Hex) as (? & ? & ?).
    repeat split; congruence.
Qed.

(** C1. One connection attempt of a stream that has not panicked. A 503
    moves the normal policy on and leaves the aggressive one as it was; a
    420 or a 429 moves the aggressive policy on and leaves the normal one
    as it was; when the policy asked answers [Stop] the next step of the
    goroutine is to return; any other status but 200 makes it return at
    once; a failure of the transport makes it send the error on
    [Messages], and once the consumer has received it, return. A
    goroutine that returns makes no further attempt and waits no more,
    whatever the schedule, and exits. *)
Theorem retry_attempt exp agg σ :
  reachable exp agg σ → panicked σ = false → pc (task σ) = Connect →
  ∃ σ', step Run σ = Some σ'
    ∧ attempts (task σ') = S (attempts (task σ))
    ∧ slept σ' = slept σ
    ∧ received σ' = received σ
    ∧ match Do (attempts (task σ)) with
      | DoError err =>
        pc (task σ') = SendError err
        ∧ step Run σ' = None ∧ step OnDone σ' = None
        ∧ ∃ σ'', step Receive σ' = Some σ''
                 ∧ received σ'' = received σ ++ [MError err]
                 ∧ finishes σ''
      | Response status =>
        if bool_decide (status = 200)%Z then
          pc (task σ') = ReceiveHead
          ∧ expBackOff (task σ') = expBackOff (task σ)
          ∧ aggExpBackOff (task σ') = aggExpBackOff (task σ)
        else if bool_decide (status = 503)%Z then
          pc (task σ') = CloseBody
          ∧ wait (task σ') = (NextBackOff (expBackOff (task σ))).1
          ∧ expBackOff (task σ') = (NextBackOff (expBackOff (task σ))).2
          ∧ aggExpBackOff (task σ') = aggExpBackOff (task σ)
          ∧ (wait (task σ') = Stop_duration →
               ∃ σ'', step Run σ' = Some σ'' ∧ finishes σ'')
        else if bool_decide (status = 420 ∨ status = 429)%Z then
          pc (task σ') = CloseBody
          ∧ wait (task σ') = (NextBackOff (aggExpBackOff (task σ))).1
          ∧ aggExpBackOff (task σ') = (NextBackOff (aggExpBackOff (task σ))).2
          ∧ expBackOff (task σ') = expBackOff (task σ)
          ∧ (wait (task σ') = Stop_duration →
               ∃ σ'', step Run σ' = Some σ'' ∧ finishes σ'')
        else
          expBackOff (task σ') = expBackOff (task σ)
          ∧ aggExpBackOff (task σ') = aggExpBackOff (task σ)
          ∧ finishes σ'
      end.
Proof.
  intros Hreach Hpan Hpc.
  pose proof (reachable_invariant _ _ _ Hreach) as Hinv.
  assert (Hstep : step Run σ = Some (connect σ)).
  { unfold step, retry. by rewrite Hpan, Hpc. }
  pose proof (step_invariant _ _ _ Hinv Hstep) as Hinv'.
  exists (connect σ). split; [done|].
  destruct Hinv as (Hg & Hm & _). rewrite Hpc in Hg, Hm.
  clear Hreach Hstep. revert Hinv'.
  destruct σ as [[dn ms gr bd] [p w e a r df n k] c ret pan cl rcv sl cls].
  cbn in *. subst p pan ms gr. unfold connect; cbn.
  destruct (Do n) as [err|status]; cbn.
  - intros Hinv'. repeat (split; [done|]).
    eexists. split; [reflexivity|]. split; [done|].
    apply returning_finishes; [|done..].
    by apply (step_invariant Receive _ _ Hinv').
  - repeat case_bool_decide; cbn.
    + done.
    + destruct (NextBackOff e) as [w' e'] eqn:Hnext; cbn.
      intros Hinv'. repeat (split; [done|]).
      intros ->. eexists. split; [reflexivity|].
      apply returning_finishes; [|done..].
      by apply (step_invariant Run _ _ Hinv').
    + destruct (NextBackOff a) as [w' a'] eqn:Hnext; cbn.
      intros Hinv'. repeat (split; [done|]).
      intros ->. eexists. split; [reflexivity|].
      apply returning_finishes; [|done..].
      by apply (step_invariant Run _ _ Hinv').
    + intros Hinv'. repeat (split; [done|]).
      apply returning_finishes; [exact Hinv' | done | done].
Qed.


(** *** The loop of [receive] *)

#[local] Arguments tokens_read : simpl never.
#[local] Arguments forwarded : simpl never.

Lemma tokens_read_S b k :
  tokens_read b (S k)
  = tokens_read b k ++ match readNext b k with Token d => [d] | ReadError => [] end.
Proof.
  unfold tokens_read. rewrite seq_S, flat_map_app. cbn.
  by rewrite app_nil_r.
Qed.

Lemma forwarded_snoc ts d :
  forwarded (ts ++ [d])
  = forwarded ts ++ (if bool_decide (String.length d = 0) then [] else [getMessage d]).
Proof.
  unfold forwarded. rewrite List.filter_app, map_app. cbn.
  by case_bool_decide.
Qed.

Lemma receive_invariant_step σ0 l σ σ' :
  receive_invariant σ0 σ → step l σ = Some σ' → receive_invariant σ0 σ'.
Proof.
  unfold receive_invariant, step.
  destruct σ as [[dn ms gr bd] [p w e a r df n k] c ret pan cl rcv sl cls]; cbn.
  intros [Hle Hsame] Hs. destruct pan; [done|].
  destruct l; cbn in Hs.
  - unfold retry in Hs; cbn in Hs. destruct p; simplify_eq/=.
    + destruct (stopped dn); rcv_same Hsame.
    + unfold connect; cbn. destruct (Do n); cbn;
        repeat case_bool_decide; cbn;
        try destruct (NextBackOff e); try destruct (NextBackOff a); cbn;
        (split; [lia | intros; exfalso; lia]).
    + destruct (stopped dn); rcv_same Hsame.
    + unfold read; cbn.
      split; [by destruct (readNext r k)|].
      intros Heq.
      assert (n = attempts (task σ0)) as Hn by (by destruct (readNext r k)).
      destruct (Hsame Hn) as (Hr & Hne & Htok & rest & Heqn & Hlen & Hin & Hout).
      cbn in *. specialize (Hin eq_refl). subst rest r.
      rewrite app_nil_r in Heqn.
      destruct (readNext (resp (task σ0)) k) as [d|] eqn:Hread; cbn.
      * split; [done|]. split; [by case_bool_decide|]. split.
        { intros i Hi. destruct (decide (i = k)) as [->|]; [eauto|].
          apply Htok. lia. }
        pose proof (tokens_read_S (resp (task σ0)) k) as HS.
        rewrite Hread in HS.
        case_bool_decide as Hempty; cbn.
        -- exists []. rewrite HS, forwarded_snoc, app_assoc, <- Heqn.
           rewrite bool_decide_eq_true_2 by done.
           by rewrite !app_nil_r.
        -- exists [getMessage d]. rewrite HS, forwarded_snoc, app_assoc, <- Heqn.
           rewrite bool_decide_eq_false_2 by done.
           repeat split; first [done | cbn; lia].
      * split; [done|]. split; [done|]. split; [done|].
        exists []. rewrite app_nil_r. done.
    + rcv_same Hsame.
    + case_bool_decide; rcv_same Hsame.
    + rcv_same Hsame.
    + unfold run_deferred; cbn. destruct df; rcv_same Hsame.
    + unfold group_done; cbn. destruct gr; rcv_same Hsame.
    + unfold close_Messages; cbn. destruct ms; rcv_same Hsame.
  - unfold consume in Hs; cbn in Hs. destruct p, ms; simplify_eq/=.
    + split; [done|]. intros Heq. destruct (Hsame Heq) as (_ & Hne & _).
      by destruct (Hne err).
    + split; [done|]. intros Heq.
      destruct (Hsame Heq) as (Hr & Hne & Htok & rest & Heqn & Hlen & Hin & Hout).
      cbn in *. specialize (Hin eq_refl). subst rest.
      split; [done|]. split; [done|]. split; [done|].
      exists []. rewrite app_nil_r. repeat split; first [done | cbn; lia].
  - unfold on_done in Hs; cbn in Hs. destruct p, dn; simplify_eq/=.
    + split; [done|]. intros Heq.
      destruct (Hsame Heq) as (Hr & Hne & Htok & rest & Heqn & Hlen & Hin & Hout).
      cbn in *.
      split; [done|]. split; [done|]. split; [done|].
      exists rest. repeat split; first [done | discriminate].
    + rcv_same Hsame.
  - destruct c; simplify_eq/=. rcv_same Hsame.
  - unfold Stop in Hs; cbn in Hs. destruct c; simplify_eq/=.
    + destruct dn; simplify_eq/=; rcv_same Hsame.
    + destruct bd; rcv_same Hsame.
    + destruct gr; simplify_eq/=; rcv_same Hsame.
Qed.


Lemma receive_invariant_exec σ0 ls σ σ' :
  receive_invariant σ0 σ → exec ls σ = Some σ' → receive_invariant σ0 σ'.
Proof.
  revert σ. induction ls as [|l ls IH]; intros σ Hinv Hex; cbn in Hex.
  - by injection Hex as <-.
  - destruct (step l σ) as [σ1|] eqn:Hs; [|done].
    apply (IH σ1); [by apply (receive_invariant_step σ0 l σ) | done].
Qed.

Lemma receive_invariant_init σ0 :
  pc (task σ0) = ReceiveHead → reads (task σ0) = 0 → receive_invariant σ0 σ0.
Proof.
  intros Hpc Hreads. split; [done|]. intros _.
  rewrite Hpc, Hreads. split; [done|]. split; [intros err; discriminate|].
  split; [intros i Hi; lia|].
  exists []. unfold tokens_read, forwarded; cbn. rewrite !app_nil_r.
  repeat split; first [done | lia].
Qed.

Lemma returned_invariant_step a k rcv l σ σ' :
  returned_invariant a k rcv σ → step l σ = Some σ' →
  returned_invariant a k rcv σ'.
Proof.
  unfold returned_invariant, step.
  destruct σ as [[dn ms gr bd] [p w e b r df n j] c ret pan cl rc sl cls]; cbn.
  intros [Hle Hsame] Hs. destruct pan; [done|].
  destruct l; cbn in Hs.
  - unfold retry in Hs; cbn in Hs. destruct p; simplify_eq/=.
    + destruct (stopped dn); ret_same Hsame.
    + unfold connect; cbn. destruct (Do n); cbn;
        repeat case_bool_decide; cbn;
        try destruct (NextBackOff e); try destruct (NextBackOff b); cbn;
        (split; [lia | intros; exfalso; lia]).
    + destruct (stopped dn); ret_same Hsame.
    + unfold read; cbn. destruct (readNext r j); ret_same Hsame.
    + ret_same Hsame.
    + case_bool_decide; ret_same Hsame.
    + ret_same Hsame.
    + unfold run_deferred; cbn. destruct df; ret_same Hsame.
    + unfold group_done; cbn. destruct gr; ret_same Hsame.
    + unfold close_Messages; cbn. destruct ms; ret_same Hsame.
  - unfold consume in Hs; cbn in Hs. destruct p, ms; simplify_eq/=; ret_same Hsame.
  - unfold on_done in Hs; cbn in Hs. destruct p, dn; simplify_eq/=; ret_same Hsame.
  - destruct c; simplify_eq/=. ret_same Hsame.
  - unfold Stop in Hs; cbn in Hs. destruct c; simplify_eq/=.
    + destruct dn; simplify_eq/=; ret_same Hsame.
    + destruct bd; ret_same Hsame.
    + destruct gr; simplify_eq/=; ret_same Hsame.
Qed.

Lemma returned_invariant_exec a k rcv ls σ σ' :
  returned_invariant a k rcv σ → exec ls σ = Some σ' →
  returned_invariant a k rcv σ'.
Proof.
  revert σ. induction ls as [|l ls IH]; intros σ Hinv Hex; cbn in Hex.
  - by injection Hex as <-.
  - destruct (step l σ) as [σ1|] eqn:Hs; [|done].
    apply (IH σ1); [by apply (returned_invariant_step a k rcv l σ) | done].
Qed.

(** With [done] and [Messages] open and a consumer that receives, the
    loop of [receive] goes through every token that the body gives: from
    the head of the loop with [k] reads made, when the next [n] reads
    return tokens, the goroutine and the consumer get to the head of the
    loop with [k + n] reads made and the messages of these tokens
    received. *)
Lemma receive_run n : ∀ σ pre,
  pc (task σ) = ReceiveHead → panicked σ = false →
  done (stream σ) = Open → Messages (stream σ) = Open →
  (∀ i, reads (task σ) ≤ i < reads (task σ) + n →
     ∃ d, readNext (resp (task σ)) i = Token d) →
  received σ = pre ++ forwarded (tokens_read (resp (task σ)) (reads (task σ))) →
  ∃ ls σ', Forall (λ l, l = Run ∨ l = Receive) ls
    ∧ exec ls σ = Some σ'
    ∧ pc (task σ') = ReceiveHead
    ∧ reads (task σ') = reads (task σ) + n
    ∧ received σ'
      = pre ++ forwarded (tokens_read (resp (task σ)) (reads (task σ) + n))
    ∧ attempts (task σ') = attempts (task σ)
    ∧ resp (task σ') = resp (task σ)
    ∧ slept σ' = slept σ
    ∧ panicked σ' = false
    ∧ done (stream σ') = Open ∧ Messages (stream σ') = Open.
Proof.
  induction n as [|n IH]; intros σ pre Hpc Hpan Hdone Hmsgs Htok Hrcv.
  - exists [], σ. rewrite Nat.add_0_r. repeat split; first [done | constructor].
  - destruct (Htok (reads (task σ))) as [d Hd]; [lia|].
    destruct σ as [[dn ms gr bd] [p w e a r df m k] c ret pan cl rcv sl cls].
    cbn in *. subst p pan dn ms.
    pose proof (tokens_read_S r k) as HS. rewrite Hd in HS.
    destruct (bool_decide (String.length d = 0)) eqn:Hempty.
    + edestruct (IH
        {| stream := {| done := Open; Messages := Open; group := gr; body := bd |};
           task := {| pc := ReceiveHead; wait := w; expBackOff := e;
                      aggExpBackOff := a; resp := r; deferred := df;
                      attempts := m; reads := S k |};
           caller := c; returned := ret; panicked := false; closed := cl;
           received := rcv; slept := sl; closes := cls |} pre)
        as (ls & σ' & Hall & Hex & Hpc' & Hreads & Hrcv' & Hatt & Hresp & Hsl & Hp & Hd' & Hm');
        try done; cbn.
      * intros i Hi. apply Htok. lia.
      * rewrite HS, forwarded_snoc, Hempty, app_nil_r. exact Hrcv.
      * cbn in *. exists (Run :: Run :: ls), σ'.
        split; [constructor; [by left|]; constructor; [by left|]; done|].
        split.
        { cbn. unfold step, retry, read; cbn. rewrite Hd; cbn.
          rewrite Hempty. exact Hex. }
        rewrite <- Nat.add_succ_comm. done.
    + edestruct (IH
        {| stream := {| done := Open; Messages := Open; group := gr; body := bd |};
           task := {| pc := ReceiveHead; wait := w; expBackOff := e;
                      aggExpBackOff := a; resp := r; deferred := df;
                      attempts := m; reads := S k |};
           caller := c; returned := ret; panicked := false; closed := cl;
           received := rcv ++ [getMessage d]; slept := sl; closes := cls |} pre)
        as (ls & σ' & Hall & Hex & Hpc' & Hreads & Hrcv' & Hatt & Hresp & Hsl & Hp & Hd' & Hm');
        try done; cbn.
      * intros i Hi. apply Htok. lia.
      * rewrite HS, forwarded_snoc, Hempty, Hrcv. by rewrite app_assoc.
      * cbn in *. exists (Run :: Run :: Receive :: ls), σ'.
        split; [constructor; [by left|]; constructor; [by left|]; constructor; [by right|]; done|].
        split.
        { cbn. unfold step, retry, read, consume; cbn. rewrite Hd; cbn.
          rewrite Hempty. cbn. exact Hex. }
        rewrite <- Nat.add_succ_comm. done.
Qed.

(** C8. [retry] calls [receive] on the body of a 200 with no read made.
    From the head of the loop of [receive], on every schedule and for as
    long as the goroutine is at the same attempt: what the consumer has
    received since, with the message being sent if there is one, is the
    messages of the tokens read that are not of length zero, in the
    order they were read; nothing is lost but, when [done] is closed, the
    one message the select was sending. At the head of the loop the
    goroutine goes on to read for as long as [done] is open. At a read,
    a token of length zero takes the goroutine back to the head of the
    loop with nothing sent, a token that is not empty is what the
    goroutine sends next, and an error makes [receive] return: the
    goroutine reads no more from that body and sends no more at that
    attempt. The send waits for the consumer, whose receive takes the
    goroutine back to the head of the loop. So with [done] open and a
    consumer that receives, however many tokens the body gives, all are
    read and the messages of those that are not empty are all
    received. *)
Theorem receive_skips_keepalives σ0 ls σ :
  pc (task σ0) = ReceiveHead → reads (task σ0) = 0 →
  exec ls σ0 = Some σ →
  attempts (task σ) = attempts (task σ0) →
  (∃ rest,
     received σ ++ rest
     = received σ0 ++ forwarded (tokens_read (resp (task σ0)) (reads (task σ)))
     ∧ length rest ≤ 1
     ∧ (in_receive (pc (task σ)) = true → rest = pending (pc (task σ)))
     ∧ (in_receive (pc (task σ)) = false → done (stream σ) = Open → rest = []))
  ∧ (pc (task σ) = ReadNext → panicked σ = false →
     ∃ σ', step Run σ = Some σ'
       ∧ received σ' = received σ
       ∧ match readNext (resp (task σ0)) (reads (task σ)) with
         | Token data =>
           reads (task σ') = S (reads (task σ))
           ∧ if bool_decide (String.length data = 0)
             then pc (task σ') = ReceiveHead
             else pc (task σ') = Select (getMessage data)
         | ReadError =>
           pc (task σ') = ResetBackOffs
           ∧ ∀ ls' σ'', exec ls' σ' = Some σ'' →
               attempts (task σ'') = attempts (task σ0) →
               in_receive (pc (task σ'')) = false
               ∧ reads (task σ'') = reads (task σ)
               ∧ received σ'' = received σ
         end)
  ∧ (pc (task σ) = ReceiveHead → panicked σ = false →
     step Receive σ = None ∧ step OnDone σ = None
     ∧ ∃ σ', step Run σ = Some σ'
       ∧ pc (task σ') = match done (stream σ) with
                        | Open => ReadNext
                        | Closed => ResetBackOffs
                        end
       ∧ received σ' = received σ
       ∧ reads (task σ') = reads (task σ)
       ∧ resp (task σ') = resp (task σ)
       ∧ attempts (task σ') = attempts (task σ))
  ∧ (∀ m, pc (task σ) = Select m → panicked σ = false →
     step Run σ = None
     ∧ (Messages (stream σ) = Open →
        ∃ σ', step Receive σ = Some σ'
          ∧ received σ' = received σ ++ [m]
          ∧ pc (task σ') = ReceiveHead
          ∧ reads (task σ') = reads (task σ)
          ∧ resp (task σ') = resp (task σ)
          ∧ attempts (task σ') = attempts (task σ))
     ∧ (done (stream σ) = Closed →
        ∃ σ', step OnDone σ = Some σ'
          ∧ received σ' = received σ
          ∧ pc (task σ') = ResetBackOffs))
  ∧ (∀ n, panicked σ0 = false →
     done (stream σ0) = Open → Messages (stream σ0) = Open →
     (∀ i, i < n → ∃ d, readNext (resp (task σ0)) i = Token d) →
     ∃ ls' σ', Forall (λ l, l = Run ∨ l = Receive) ls'
       ∧ exec ls' σ0 = Some σ'
       ∧ pc (task σ') = ReceiveHead
       ∧ reads (task σ') = n
       ∧ received σ'
         = received σ0 ++ forwarded (tokens_read (resp (task σ0)) n)
       ∧ attempts (task σ') = attempts (task σ0))
  ∧ (∀ σc, pc (task σc) = Connect → panicked σc = false →
     Do (attempts (task σc)) = Response 200 →
     ∃ σ1, step Run σc = Some σ1
       ∧ pc (task σ1) = ReceiveHead
       ∧ reads (task σ1) = 0
       ∧ resp (task σ1) = attempts (task σc)
       ∧ attempts (task σ1) = S (attempts (task σc))
       ∧ received σ1 = received σc).
Proof.
  intros Hpc Hreads Hex Hatt.
  pose proof (receive_invariant_exec σ0 ls σ0 σ
                (receive_invariant_init σ0 Hpc Hreads) Hex) as [_ Hinv].
  destruct (Hinv Hatt) as (Hresp & _ & _ & Hrest). clear Hinv.
  split; [exact Hrest|].
  split; [|split; [|split; [|split]]].
  - intros Hread Hpan.
    assert (Hstep : step Run σ = Some (read σ)).
    { unfold step, retry. by rewrite Hpan, Hread. }
    exists (read σ). split; [done|].
    assert (Hafter : pc (task (read σ)) = ResetBackOffs →
              attempts (task (read σ)) = attempts (task σ0) →
              returned_invariant (attempts (task σ0)) (reads (task (read σ)))
                (received (read σ)) (read σ)).
    { intros Hp Ha. split; [by rewrite Ha|]. intros _. by rewrite Hp. }
    revert Hafter. unfold read. rewrite Hresp.
    destruct (readNext (resp (task σ0)) (reads (task σ))) as [data|]; cbn.
    + intros _. split; [done|]. split; [done|]. by case_bool_decide.
    + intros Hafter. split; [done|]. split; [done|].
      intros ls' σ'' Hex' Hatt'.
      destruct (returned_invariant_exec _ _ _ ls' _ σ'' (Hafter eq_refl Hatt) Hex')
        as [_ Hret].
      destruct (Hret Hatt') as (Hpos & Hk & Hrcv).
      split; [by destruct (pc (task σ''))|]. done.
  - intros Hhead Hpan. unfold step, consume, on_done, retry.
    rewrite Hpan, Hhead. split; [done|]. split; [done|].
    eexists. split; [reflexivity|]. cbn. by destruct (done (stream σ)).
  - intros m Hsel Hpan. unfold step, consume, on_done, retry.
    rewrite Hpan, Hsel. split; [done|]. split.
    + intros ->. eexists. split; [reflexivity|]. done.
    + intros ->. eexists. split; [reflexivity|]. done.
  - intros n Hpan Hdone Hmsgs Htok.
    destruct (receive_run n σ0 (received σ0) Hpc Hpan Hdone Hmsgs)
      as (ls' & σ' & Hall & Hex' & Hpc' & Hreads' & Hrcv' & Hatt' & _).
    + intros i Hi. apply Htok. lia.
    + rewrite Hreads. unfold tokens_read, forwarded; cbn. by rewrite app_nil_r.
    + exists ls', σ'. rewrite Hreads in Hreads', Hrcv'. done.
  - intros σc Hc Hpan HDo. unfold step, retry. rewrite Hpan, Hc.
    eexists. split; [reflexivity|].
    unfold connect. rewrite HDo. cbn. done.
Qed.

(** C5, as the code has it. A first call of [Stop] made once the
    goroutine has exited on its own runs its three statements and returns
    without a panic, leaving [done] closed. A call of [Stop] made after a
    call of [Stop] has returned panics at [close(s.done)], and the program
    has no further step. *)
Theorem Stop_once exp agg σ :
  reachable exp agg σ → panicked σ = false → caller σ = Idle →
  (returned σ = 0 → pc (task σ) = Exited →
     ∃ σ', exec [Call; Stopper; Stopper; Stopper] σ = Some σ'
           ∧ panicked σ' = false ∧ caller σ' = Idle ∧ returned σ' = 1
           ∧ done (stream σ') = Closed)
  ∧ (0 < returned σ →
     ∃ σ', exec [Call; Stopper] σ = Some σ'
           ∧ panicked σ' = true ∧ ∀ l, step l σ' = None).
Proof.
  intros Hreach Hpan Hcaller.
  destruct (reachable_invariant _ _ _ Hreach) as (Hg & _ & _ & _ & _ & Hdone & _).
  destruct σ as [[dn ms gr bd] [p w e a r df n k] c ret pan cl rcv sl cls].
  cbn in *. subst c pan. split.
  - intros -> ->. subst gr.
    assert (dn = Open) as ->.
    { destruct dn; [done|]. destruct Hdone as [Hd _].
      destruct (Hd eq_refl) as [?|[?|?]]; [lia | done | done]. }
    destruct bd; (eexists; split; [reflexivity | done]).
  - intros Hret.
    assert (dn = Closed) as -> by (apply Hdone; by left).
    eexists. split; [reflexivity|]. split; [done|]. by intros [].
Qed.
End RetryProperties.

(** *** The stream on worlds *)

Section StreamExamples.
#[local] Existing Instance spec_declarations.
#[local] Open Scope list_scope.
#[local] Open Scope nat_scope.

(** After a stream has ended, policies are reset, and the goroutine
    waits once more the duration that the last backoff left in [wait]
    before it connects again. *)
Lemma stream_end_resets_and_waits {W : World} (σ : @state policy policy) :
  pc (task σ) = ResetBackOffs → panicked σ = false →
  wait (task σ) ≠ Stop_duration →
  ∃ σ', exec [Run; Run; Run] σ = Some σ'
        ∧ pc (task σ') = LoopHead
        ∧ expBackOff (task σ') = Reset (expBackOff (task σ))
        ∧ aggExpBackOff (task σ') = Reset (aggExpBackOff (task σ))
        ∧ attempts (task σ') = attempts (task σ)
        ∧ slept σ' = slept σ ++ [wait (task σ)].
Proof.
  destruct σ as [[dn ms gr bd] [p w e a r df n k] c ret pan cl rcv sl cls].
  cbn. intros -> -> Hw.
  eexists. split.
  - cbn. unfold step; cbn. rewrite bool_decide_eq_false_2 by done. cbn.
    reflexivity.
  - done.
Qed.

(** C4, on the code. The first response is a 503, the second a 200 whose
    body ends at once. The goroutine waits 5 s after the 503, streams, and
    resets the policies; then, before its third attempt, it waits the 5 s
    of the 503 once more. *)
Theorem retry_waits_again_after_stream :
  ∃ σ, after overloaded_then_streaming (replicate 11 Run) = Some σ
       ∧ pc (task σ) = LoopHead
       ∧ attempts (task σ) = 2
       ∧ expBackOff (task σ) = newExponentialBackOff
       ∧ aggExpBackOff (task σ) = newAggressiveExponentialBackOff
       ∧ received σ = []
       ∧ slept σ = [5 * second; 5 * second]%Z.
Proof. eexists. split; [vm_compute; reflexivity|]. by vm_compute. Qed.

(** A 404: the goroutine returns after one attempt, without a wait and
    without a message, and closes [Messages]. *)
Example retry_not_found :
  ∃ σ, after not_found (replicate 6 Run) = Some σ
       ∧ pc (task σ) = Exited
       ∧ attempts (task σ) = 1
       ∧ slept σ = [] ∧ received σ = []
       ∧ Messages (stream σ) = Closed ∧ closes σ = 1
       ∧ 0 ∈ closed σ.
Proof.
  eexists. split; [vm_compute; reflexivity|].
  repeat split; by vm_compute.
Qed.

(** Calling [Stop] twice, the second call after the first has returned,
    panics: C5 as it is worded fails. *)
Lemma Stop_twice_panics :
  ¬ (∀ σ, reachable (W := transport_down)
            newExponentialBackOff newAggressiveExponentialBackOff σ →
          panicked σ = false).
Proof.
  intros Hclaim.
  pose proof (Hclaim
    (state_after transport_down
       [Call; Stopper; Stopper; Run; Run; Run; Run; Stopper; Call; Stopper])) as Hpan.
  assert (panicked
            (state_after transport_down
               [Call; Stopper; Stopper; Run; Run; Run; Run; Stopper; Call; Stopper])
          = true) as Htrue by (vm_compute; reflexivity).
  rewrite Hpan in Htrue; [discriminate|].
  exists [Call; Stopper; Stopper; Run; Run; Run; Run; Stopper; Call; Stopper].
  vm_compute. reflexivity.
Qed.

(** C7, on the code. With the transport down: (1) [Stop] is called
    before the goroutine has looked at [done]; the goroutine returns and
    runs [s.group.Done()], [Stop] returns, and [Messages] is not closed
    yet. (2) The goroutine is sending the error of the transport, [Stop]
    is called and waits; as long as the consumer does not receive, no
    step is left to the goroutine or to [Stop]. *)
Theorem Stop_returns_early_or_never :
  (∃ σ, after transport_down [Call; Stopper; Stopper; Run; Run; Run; Stopper] = Some σ
        ∧ returned σ = 1 ∧ caller σ = Idle
        ∧ pc (task σ) = CloseMessages
        ∧ Messages (stream σ) = Open ∧ closes σ = 0)
  ∧ (∃ σ, after transport_down [Run; Run; Call; Stopper; Stopper] = Some σ
          ∧ pc (task σ) = SendError (TransportError "connection refused")
          ∧ caller σ = AtWait ∧ returned σ = 0
          ∧ done (stream σ) = Closed
          ∧ ∀ l, l ≠ Receive → step (W := transport_down) l σ = None).
Proof.
  split.
  - eexists. split; [vm_compute; reflexivity|]. by vm_compute.
  - eexists. split; [vm_compute; reflexivity|].
    repeat split; try by vm_compute.
    intros l Hl. by destruct l.
Qed.

Lemma retry_attempt_witness :
  reachable (W := overloaded_then_streaming)
    newExponentialBackOff newAggressiveExponentialBackOff
    (state_after overloaded_then_streaming [Run])
  ∧ pc (task (state_after overloaded_then_streaming [Run])) = Connect
  ∧ ∃ σ', step (W := overloaded_then_streaming) Run
            (state_after overloaded_then_streaming [Run]) = Some σ'
          ∧ wait (task σ') = (5 * second)%Z
          ∧ aggExpBackOff (task σ') = newAggressiveExponentialBackOff.
Proof.
  split; [exists [Run]; vm_compute; reflexivity|]. split; [vm_compute; reflexivity|].
  destruct (retry_attempt (W := overloaded_then_streaming)
              newExponentialBackOff newAggressiveExponentialBackOff
              (state_after overloaded_then_streaming [Run]))
    as (σ' & Hs & _ & _ & _ & Hm).
  - exists [Run]; vm_compute; reflexivity.
  - vm_compute; reflexivity.
  - vm_compute; reflexivity.
  - exists σ'. split; [exact Hs|]. cbn in Hm.
    destruct Hm as (_ & Hw & _ & Ha & _). split; [exact Hw | exact Ha].
Defined.

Lemma Messages_closed_once_witness :
  reachable (W := transport_down)
    newExponentialBackOff newAggressiveExponentialBackOff
    (state_after transport_down [Run; Run; Receive; Run; Run; Run])
  ∧ closes (state_after transport_down [Run; Run; Receive; Run; Run; Run]) = 1
  ∧ pc (task (state_after transport_down [Run; Run; Receive; Run; Run; Run])) = Exited.
Proof.
  split; [exists [Run; Run; Receive; Run; Run; Run]; vm_compute; reflexivity|].
  split; [vm_compute; reflexivity|].
  destruct (Messages_closed_once (W := transport_down)
              newExponentialBackOff newAggressiveExponentialBackOff
              (state_after transport_down [Run; Run; Receive; Run; Run; Run]))
    as (_ & Hiff & _).
  - exists [Run; Run; Receive; Run; Run; Run]; vm_compute; reflexivity.
  - apply Hiff. reflexivity.
Defined.

Lemma receive_skips_keepalives_witness :
  pc (task (state_after streaming [Run; Run])) = ReceiveHead
  ∧ exec (W := streaming)
      [Run; Run; Run; Run; Receive; Run; Run; Run; Run; Receive; Run]
      (state_after streaming [Run; Run])
    = after streaming
        [Run; Run; Run; Run; Run; Run; Receive; Run; Run; Run; Run; Receive; Run]
  ∧ received
      (state_after streaming
         [Run; Run; Run; Run; Run; Run; Receive; Run; Run; Run; Run; Receive; Run])
    = [getMessage unrecognized_token; getMessage deletion_token]
  ∧ ∃ ls σ', exec (W := streaming) ls (state_after streaming [Run; Run]) = Some σ'
             ∧ pc (task σ') = ReceiveHead
             ∧ reads (task σ') = 4
             ∧ received σ'
               = [getMessage unrecognized_token; getMessage deletion_token].
Proof.
  split; [vm_compute; reflexivity|]. split; [vm_compute; reflexivity|].
  destruct (receive_skips_keepalives (W := streaming)
              (state_after streaming [Run; Run])
              [Run; Run; Run; Run; Receive; Run; Run; Run; Run; Receive; Run]
              (state_after streaming
                 [Run; Run; Run; Run; Run; Run; Receive; Run; Run; Run; Run; Receive; Run]))
    as [(rest & Heq & _ & Hin & _) (_ & _ & _ & Hall & _)].
  - vm_compute; reflexivity.
  - vm_compute; reflexivity.
  - vm_compute; reflexivity.
  - vm_compute; reflexivity.
  - split.
    + rewrite (Hin eq_refl), app_nil_r in Heq. rewrite Heq.
      vm_compute. reflexivity.
    + destruct (Hall 4) as (ls & σ' & _ & Hex & Hpc & Hreads & Hrcv & _).
      * vm_compute; reflexivity.
      * vm_compute; reflexivity.
      * vm_compute; reflexivity.
      * intros i Hi.
        destruct i as [|[|[|[|i]]]]; [eexists; vm_compute; reflexivity..|lia].
      * exists ls, σ'. split; [done|]. split; [done|]. split; [done|].
        rewrite Hrcv. vm_compute. reflexivity.
Defined.

Lemma Stop_once_witness :
  reachable (W := transport_down)
    newExponentialBackOff newAggressiveExponentialBackOff
    (state_after transport_down [Run; Run; Receive; Run; Run; Run])
  ∧ pc (task (state_after transport_down [Run; Run; Receive; Run; Run; Run])) = Exited
  ∧ ∃ σ', exec (W := transport_down) [Call; Stopper; Stopper; Stopper]
            (state_after transport_down [Run; Run; Receive; Run; Run; Run]) = Some σ'
          ∧ panicked σ' = false ∧ returned σ' = 1.
Proof.
  split; [exists [Run; Run; Receive; Run; Run; Run]; vm_compute; reflexivity|].
  split; [vm_compute; reflexivity|].
  destruct (Stop_once (W := transport_down)
              newExponentialBackOff newAggressiveExponentialBackOff
              (state_after transport_down [Run; Run; Receive; Run; Run; Run]))
    as [Hfirst _].
  - exists [Run; Run; Receive; Run; Run; Run]; vm_compute; reflexivity.
  - vm_compute; reflexivity.
  - vm_compute; reflexivity.
  - destruct Hfirst as (σ' & Hex & Hpan & _ & Hret & _); [vm_compute; reflexivity..|].
    exists σ'. split; [exact Hex|]. split; [exact Hpan | exact Hret].
Defined.

End StreamExamples.

#[local] Open Scope list_scope.
#[local] Open Scope nat_scope.

(** ** Further properties *)

(** *** The classifier *)

Section ClassifierMoreProperties.
Context {D : Declarations}.

Lemma foldl_insert_member_lookup (m : gmap string goval) l key :
  is_Some (foldl insert_member m l !! key) ↔ is_Some (m !! key) ∨ key ∈ l.*1.
Proof.
  revert m. induction l as [|[k v] l IH]; intros m; cbn.
  - rewrite elem_of_nil. tauto.
  - rewrite IH. unfold insert_member; cbn. rewrite elem_of_cons, lookup_insert.
    case_decide; subst; cbn; [|intuition congruence].
    split; [tauto|]. intros _. left. eauto.
Qed.

Lemma hasPath_any_object ms key :
  hasPath (any (JObject ms)).1 key = bool_decide (key ∈ ms.*1).
Proof.
  cbn. unfold hasPath. apply bool_decide_ext.
  rewrite foldl_insert_member_lookup, lookup_empty.
  rewrite <- !list_fmap_compose.
  split; [intros [[? ?]|?]; done | by right].
Qed.

Lemma find_ext {X} (p q : X → bool) (l : list X) :
  (∀ x, x ∈ l → p x = q x) → List.find p l = List.find q l.
Proof.
  induction l as [|a l IH]; intros Hpq; [done|]. cbn.
  rewrite (Hpq a) by apply list_elem_of_here.
  destruct (q a); [done|]. apply IH. intros x Hx. apply Hpq. by apply list_elem_of_further.
Qed.

Lemma shape_of_getMessage token data :
  unmarshal token TMapAny = (data, None) →
  shape_of (getMessage token) = first_match data.
Proof.
  intros Hu. rewrite (getMessage_unmarshalled _ _ Hu), decodeMessage_Classify.
  unfold Classify. destruct (first_match data) as [s|]; [apply shape_of_deliver | done].
Qed.

(** X1. When the token is a JSON object, [hasPath] on the map that
    [getMessage] unmarshals it into is true of the names of the members of
    the object, whatever their values, and of nothing else: a name that
    occurs further down in the token does not count. *)
Theorem hasPath_top_level token ms key :
  Scanner.parse token = Some (JObject ms) →
  hasPath (unmarshal token TMapAny).1 key = bool_decide (key ∈ ms.*1).
Proof.
  intros Hp. rewrite unmarshal_data, Hp. apply hasPath_any_object.
Qed.

(** X2. The kind of message [getMessage] makes of an object depends on
    which of the twelve keys are among the names of its members, and on
    nothing else: two objects that unmarshal into the data map without
    error and have the same of these names are given the same kind,
    whatever the order of their members, their values and their other
    names. *)
Theorem getMessage_shape_by_names token1 token2 ms1 ms2 :
  Scanner.parse token1 = Some (JObject ms1) →
  Scanner.parse token2 = Some (JObject ms2) →
  (unmarshal token1 TMapAny).2 = None →
  (unmarshal token2 TMapAny).2 = None →
  (∀ key, key ∈ priority.*1 → key ∈ ms1.*1 ↔ key ∈ ms2.*1) →
  shape_of (getMessage token1) = shape_of (getMessage token2).
Proof.
  intros Hp1 Hp2 He1 He2 Hnames.
  pose proof (unmarshal_data token1) as Hu1. rewrite Hp1 in Hu1.
  pose proof (unmarshal_data token2) as Hu2. rewrite Hp2 in Hu2.
  rewrite Hu1 in He1. rewrite Hu2 in He2.
  destruct (any (JObject ms1)) as [data1 e1] eqn:Ha1.
  destruct (any (JObject ms2)) as [data2 e2] eqn:Ha2.
  cbn in He1, He2. subst e1 e2.
  rewrite (shape_of_getMessage _ _ Hu1), (shape_of_getMessage _ _ Hu2).
  unfold first_match. f_equal. apply find_ext. intros [key s] Hin; cbn.
  replace data1 with (any (JObject ms1)).1 by (by rewrite Ha1).
  replace data2 with (any (JObject ms2)).1 by (by rewrite Ha2).
  rewrite !hasPath_any_object. apply bool_decide_ext, Hnames.
  apply list_elem_of_fmap. by exists (key, s).
Qed.
End ClassifierMoreProperties.

(** *** The stream *)

Section RetryMoreProperties.
Context {D : Declarations} {W : World} {E A : Type} {BE : BackOff E} {BA : BackOff A}.
Implicit Types σ : @state E A.

Lemma cancelled_step l σ σ' :
  done (stream σ) = Closed → step l σ = Some σ' →
  done (stream σ') = Closed
  ∧ (if own l then S (rank σ') else rank σ') ≤ rank σ
  ∧ length (received σ') + in_flight (pc (task σ'))
    ≤ length (received σ) + in_flight (pc (task σ))
  ∧ attempts (task σ') + at_connect (pc (task σ'))
    ≤ attempts (task σ) + at_connect (pc (task σ)).
Proof.
  unfold step, rank.
  destruct σ as [[dn ms gr bd] [p w e a r df n k] c ret pan cl rcv sl cls]; cbn.
  intros -> Hs. destruct pan; [done|].
  step_split Hs l dn ms gr bd p e a r df n k c
    ltac:(cbn; rewrite ?length_app; cbn;
          repeat split; first [done | lia | idtac]).
Qed.

Lemma cancelled_exec ls σ σ' :
  done (stream σ) = Closed → exec ls σ = Some σ' →
  done (stream σ') = Closed
  ∧ length (List.filter own ls) + rank σ' ≤ rank σ
  ∧ length (received σ') + in_flight (pc (task σ'))
    ≤ length (received σ) + in_flight (pc (task σ))
  ∧ attempts (task σ') + at_connect (pc (task σ'))
    ≤ attempts (task σ) + at_connect (pc (task σ)).
Proof.
  revert σ. induction ls as [|l ls IH]; intros σ Hdone Hex; cbn in Hex.
  - injection Hex as <-. cbn. repeat split; first [done | lia].
  - destruct (step l σ) as [σ1|] eqn:Hs; [|done].
    destruct (cancelled_step l σ σ1 Hdone Hs) as (Hd1 & Hr1 & Hm1 & Ha1).
    destruct (IH σ1 Hd1 Hex) as (Hd & Hr & Hm & Ha).
    split; [done|]. cbn. destruct (own l); cbn in *; repeat split; lia.
Qed.

(** What a call of [Stop] leaves closed: the body the goroutine holds is
    [s.body], and once [Stop] is at [s.group.Wait()] a body the goroutine
    is reading is closed. *)
Lemma close_invariant_step l σ σ' :
  invariant σ → close_invariant σ → step l σ = Some σ' → close_invariant σ'.
Proof.
  unfold invariant, close_invariant, step.
  destruct σ as [[dn ms gr bd] [p w e a r df n k] c ret pan cl rcv sl cls]; cbn.
  intros (_ & _ & _ & _ & _ & Hdone & _) [Hbody Hread] Hs.
  destruct pan; [done|].
  step_split Hs l dn ms gr bd p e a r df n k c
    ltac:(cbn in *;
          first
            [ by (split; [by first [done | intros; apply Hbody] |];
                  intros; first [done | by apply Hread
                                | by (apply elem_of_union; right; apply Hread)])
            | idtac ]).
  - split; [done|]. intros -> _.
    destruct dn; [|done]. destruct Hdone as [_ Hd].
    by specialize (Hd ltac:(by right; right)).
  - split; [done|]. intros _ ->.
    specialize (Hbody eq_refl). injection Hbody as ->.
    apply elem_of_union. left. by apply elem_of_singleton.
  - split; [done|]. intros _ ->. by specialize (Hbody eq_refl).
Qed.

Lemma close_invariant_exec ls σ σ' :
  invariant σ → close_invariant σ → exec ls σ = Some σ' → close_invariant σ'.
Proof.
  revert σ. induction ls as [|l ls IH]; intros σ Hinv Hclose Hex; cbn in Hex.
  - by injection Hex as <-.
  - destruct (step l σ) as [σ1|] eqn:Hs; [|done].
    apply (IH σ1);
      [by apply (step_invariant l σ) | by apply (close_invariant_step l σ) | done].
Qed.

(** Once [done] is closed the goroutine has a step of its own, with the
    consumer if it is sending, for as long as it has not exited; when it
    is at a read the body is to be closed for the read to return. No such
    step leads to a read or to a call of [client.Do]. *)
Lemma cancelled_progress σ :
  invariant σ → panicked σ = false → done (stream σ) = Closed →
  pc (task σ) ≠ Exited → pc (task σ) ≠ Connect →
  (pc (task σ) = ReadNext → resp (task σ) ∈ closed σ) →
  ∃ l σ1, own l = true ∧ step l σ = Some σ1
          ∧ unblocked l σ = true
          ∧ pc (task σ1) ≠ ReadNext ∧ pc (task σ1) ≠ Connect
          ∧ panicked σ1 = false ∧ caller σ1 = caller σ
          ∧ returned σ1 = returned σ.
Proof.
  unfold invariant, step, unblocked.
  destruct σ as [[dn ms gr bd] [p w e a r df n k] c ret pan cl rcv sl cls]; cbn.
  intros (Hg & Hm & _) -> -> Hpc Hconn Hclosed.
  destruct p; simplify_eq/=;
    first
      [ by (exists Run; eexists; repeat split;
            (try (unfold run_deferred; cbn; destruct df)); try done;
            try (by apply bool_decide_eq_true_2, Hclosed);
            try (unfold read; cbn; destruct (readNext r k); cbn;
                 try case_bool_decide);
            done)
      | by (exists OnDone; eexists; repeat split; done)
      | by (exists Receive; eexists; repeat split; eauto) ].
Qed.

Lemma cancelled_completion n σ :
  rank σ ≤ n → invariant σ → panicked σ = false → done (stream σ) = Closed →
  pc (task σ) ≠ Connect →
  (pc (task σ) = ReadNext → resp (task σ) ∈ closed σ) →
  ∃ ls σ', Forall (λ l, own l = true) ls
           ∧ length ls + rank σ' ≤ rank σ
           ∧ exec ls σ = Some σ'
           ∧ unblocked_schedule ls σ = true
           ∧ pc (task σ') = Exited ∧ panicked σ' = false
           ∧ caller σ' = caller σ ∧ returned σ' = returned σ.
Proof.
  revert σ. induction n as [|n IH]; intros σ Hn Hinv Hpan Hdone Hconn Hclosed.
  - unfold rank in Hn. rewrite Hpan in Hn. lia.
  - assert (pc (task σ) = Exited ∨ pc (task σ) ≠ Exited) as [Hex|Hnex]
      by (destruct (pc (task σ)); first [by left | by right]).
    + exists [], σ. cbn. repeat split; first [done | lia | constructor].
    + destruct (cancelled_progress σ Hinv Hpan Hdone Hnex Hconn Hclosed)
        as (l & σ1 & Hown & Hs & Hun & Hnoread & Hnoconn & Hpan1 & Hc1 & Hr1).
      destruct (cancelled_step l σ σ1 Hdone Hs) as (Hd1 & Hrk & _).
      rewrite Hown in Hrk.
      destruct (IH σ1 ltac:(lia) (step_invariant l σ σ1 Hinv Hs) Hpan1 Hd1 Hnoconn)
        as (ls & σ' & Hall & Hlen & Hexec & Hreads & Hpc & Hpan' & Hc' & Hr').
      { intros Hread. by destruct Hnoread. }
      exists (l :: ls), σ'. cbn. rewrite Hs, Hun, Hreads. cbn.
      repeat split; first [done | lia | congruence | by constructor].
Qed.

(** X3. Once [done] is closed, on every schedule, the goroutine and the
    consumer take no more steps than the rank of the state, which counts
    the statements left to the return and the deferred closes; and
    [done] stays closed. *)
Theorem cancelled_goroutine_bounded ls σ σ' :
  done (stream σ) = Closed → exec ls σ = Some σ' →
  length (List.filter own ls) + rank σ' ≤ rank σ
  ∧ done (stream σ') = Closed.
Proof.
  intros Hdone Hex.
  by destruct (cancelled_exec ls σ σ' Hdone Hex) as (Hd & Hr & _).
Qed.

(** X4. Once [done] is closed, on every schedule, the consumer receives
    one more message at most, and none when the goroutine is neither at a
    read, nor sending, nor at the call of [client.Do]; and the goroutine
    calls [client.Do] no more, but for the call it is at. *)
Theorem cancelled_one_more_message ls σ σ' :
  done (stream σ) = Closed → exec ls σ = Some σ' →
  length (received σ') ≤ length (received σ) + in_flight (pc (task σ))
  ∧ in_flight (pc (task σ)) ≤ 1
  ∧ attempts (task σ') ≤ attempts (task σ) + at_connect (pc (task σ)).
Proof.
  intros Hdone Hex.
  destruct (cancelled_exec ls σ σ' Hdone Hex) as (_ & _ & Hm & Ha).
  split; [lia|]. split; [by destruct (pc (task σ)); cbn; lia | lia].
Qed.

(** X5. When a call of [Stop] is at [s.group.Wait()], in a state the
    program gets to: [done] is closed, and a body the goroutine is
    reading has been closed by [Stop], so that the read returns. From
    there, unless the goroutine is in a call of [client.Do], there is a
    schedule of the goroutine, with a consumer that receives, that waits
    for nothing from the server (it makes no call of [client.Do] and
    reads from no body that is open), is no longer than the rank of the
    state, and ends with the goroutine exited and [Messages] closed; the
    call of [Stop] then returns. *)
Theorem Stop_returns_with_consumer exp agg σ :
  reachable exp agg σ → panicked σ = false → caller σ = AtWait →
  done (stream σ) = Closed
  ∧ (pc (task σ) = ReadNext → resp (task σ) ∈ closed σ)
  ∧ (pc (task σ) ≠ Connect →
     ∃ ls σ', Forall (λ l, own l = true) ls
              ∧ length ls ≤ rank σ
              ∧ exec ls σ = Some σ'
              ∧ unblocked_schedule ls σ = true
              ∧ pc (task σ') = Exited
              ∧ Messages (stream σ') = Closed
              ∧ ∃ σ'', step Stopper σ' = Some σ''
                       ∧ caller σ'' = Idle
                       ∧ returned σ'' = S (returned σ)
                       ∧ panicked σ'' = false).
Proof.
  intros Hreach Hpan Hwait.
  pose proof (reachable_invariant _ _ _ Hreach) as Hinv.
  assert (Hdone : done (stream σ) = Closed).
  { destruct Hinv as (_ & _ & _ & _ & _ & Hd & _). apply Hd. by right; right. }
  assert (Hclosed : pc (task σ) = ReadNext → resp (task σ) ∈ closed σ).
  { destruct Hreach as [ls0 Hex0].
    assert (Hinit : close_invariant (newStream exp agg)) by (by split).
    destruct (close_invariant_exec ls0 _ σ (newStream_invariant exp agg) Hinit Hex0)
      as [_ Hread].
    by apply Hread. }
  split; [done|]. split; [done|]. intros Hconn.
  destruct (cancelled_completion (rank σ) σ (le_n _) Hinv Hpan Hdone Hconn Hclosed)
    as (ls & σ' & Hall & Hlen & Hex & Hreads & Hpc & Hpan' & Hc & Hr).
  exists ls, σ'. split; [done|]. split; [lia|]. split; [done|]. split; [done|].
  split; [done|].
  destruct (exec_invariant ls σ σ' Hinv Hex) as (Hg & Hm & _).
  rewrite Hpc in Hg, Hm. split; [done|].
  rewrite Hwait in Hc.
  unfold step, Stop. rewrite Hpan', Hc, Hg.
  eexists. split; [reflexivity|]. cbn. by rewrite Hr.
Qed.

Lemma Stop_invariant_step l σ σ' :
  invariant σ → Stop_invariant σ → step l σ = Some σ' →
  Stop_invariant σ' ∧ calls σ' = calls σ + (if is_call l then 1 else 0).
Proof.
  unfold invariant, Stop_invariant, calls, step.
  destruct σ as [[dn ms gr bd] [p w e a r df n k] c ret pan cl rcv sl cls]; cbn.
  intros (Hg & Hm & _ & _ & _ & Hdone & _) [Hret Hpan] Hs.
  destruct pan; [done|].
  step_split Hs l dn ms gr bd p e a r df n k c
    ltac:(cbn in *; repeat split;
          first [ done | lia | by apply Hret | by apply Hpan
                | intros; first [done | lia | by apply Hret | by apply Hpan]
                | idtac ]).
  - destruct Hdone as [H1 _]. destruct (H1 eq_refl) as [?|[?|?]]; done.
  - destruct p; simplify_eq/=. all: done.
  - destruct p; simplify_eq/=.
  - destruct p; simplify_eq/=.
  - destruct p; simplify_eq/=. all: cbn; lia.
Qed.

Lemma Stop_invariant_exec ls σ σ' :
  invariant σ → Stop_invariant σ → exec ls σ = Some σ' →
  Stop_invariant σ' ∧ calls σ' = calls σ + length (List.filter is_call ls).
Proof.
  revert σ. induction ls as [|l ls IH]; intros σ Hinv Hstop Hex; cbn in Hex.
  - injection Hex as <-. cbn. split; [done | lia].
  - destruct (step l σ) as [σ1|] eqn:Hs; [|done].
    destruct (Stop_invariant_step l σ σ1 Hinv Hstop Hs) as [Hstop1 Hcalls1].
    destruct (IH σ1 (step_invariant l σ σ1 Hinv Hs) Hstop1 Hex) as [Hstop' Hcalls'].
    split; [done|]. cbn. destruct (is_call l); cbn in *; lia.
Qed.

Lemma newStream_Stop_invariant (exp : E) (agg : A) :
  Stop_invariant (newStream exp agg) ∧ calls (newStream exp agg) = 0.
Proof. unfold Stop_invariant, calls; cbn. repeat split; first [done | lia]. Qed.

(** X6. A stream panics only once [Stop] has been called twice: on a
    schedule with one call of [Stop] at most, as in the example program,
    no statement of the goroutine or of [Stop] panics; and the number of
    calls that have returned or are under way is the number of calls
    made. *)
Theorem panic_needs_two_calls exp agg ls σ :
  exec ls (newStream exp agg) = Some σ →
  calls σ = length (List.filter is_call ls)
  ∧ (panicked σ = true → 2 ≤ length (List.filter is_call ls))
  ∧ (length (List.filter is_call ls) ≤ 1 → panicked σ = false).
Proof.
  intros Hex.
  destruct (newStream_Stop_invariant exp agg) as [Hstop0 Hcalls0].
  destruct (Stop_invariant_exec ls _ σ (newStream_invariant exp agg) Hstop0 Hex)
    as [[_ Hpan] Hcalls].
  rewrite Hcalls0 in Hcalls. cbn in Hcalls.
  assert (Htwo : panicked σ = true → 2 ≤ length (List.filter is_call ls)).
  { intros Hp. destruct (Hpan Hp) as [Hret Hc].
    rewrite <- Hcalls. unfold calls. rewrite Hc. lia. }
  split; [done|]. split; [done|].
  intros Hle. destruct (panicked σ); [|done].
  specialize (Htwo eq_refl). lia.
Qed.

(** X7. When a call of [Stop] has returned, in a state the program gets
    to, the goroutine has run [s.group.Done()]: it has only
    [close(s.Messages)] left to run, or has exited; every body it
    obtained is closed; and on every schedule from there nothing more is
    received and no other attempt is made. *)
Theorem Stop_returned_goroutine_done exp agg σ :
  reachable exp agg σ → 0 < returned σ →
  (pc (task σ) = CloseMessages ∨ pc (task σ) = Exited)
  ∧ done (stream σ) = Closed
  ∧ (∀ b status, b < attempts (task σ) → Do b = Response status → b ∈ closed σ)
  ∧ ∀ ls σ', exec ls σ = Some σ' →
      received σ' = received σ ∧ attempts (task σ') = attempts (task σ)
      ∧ slept σ' = slept σ.
Proof.
  intros [ls0 Hex0] Hret.
  destruct (newStream_Stop_invariant exp agg) as [Hstop0 _].
  destruct (Stop_invariant_exec ls0 _ σ (newStream_invariant exp agg) Hstop0 Hex0)
    as [[Hgroup _] _].
  destruct (exec_invariant ls0 _ σ (newStream_invariant exp agg) Hex0)
    as (Hg & _ & _ & Hheld & Hdef & Hdone & _).
  specialize (Hgroup Hret). rewrite Hgroup in Hg.
  assert (Hpc : pc (task σ) = CloseMessages ∨ pc (task σ) = Exited)
    by (destruct (pc (task σ)); first [by left | by right | done]).
  split; [done|]. split; [apply Hdone; by left|].
  assert (Hnil : deferred (task σ) = []) by (by destruct Hpc as [Hp|Hp]; rewrite Hp in Hdef).
  split.
  - intros b status Hb HDo. destruct (Hheld b status Hb HDo) as [|Hin]; [done|].
    rewrite Hnil in Hin. by apply elem_of_nil in Hin.
  - intros ls σ' Hex.
    assert (Hreturning : returning (pc (task σ)) = true)
      by (by destruct Hpc as [Hp|Hp]; rewrite Hp).
    destruct (returning_exec ls σ σ' Hreturning Hex) as (_ & ? & ? & ?).
    done.
Qed.

(** *** The bodies *)

#[local] Arguments responses : simpl never.

Lemma responses_S n :
  responses (S n) = if is_response (Do n) then n :: responses n else responses n.
Proof.
  unfold responses. rewrite seq_S, rev_app_distr. cbn.
  by destruct (is_response (Do n)).
Qed.

Lemma bodies_invariant_step l σ σ' :
  bodies_invariant σ → step l σ = Some σ' → bodies_invariant σ'.
Proof.
  unfold bodies_invariant, step.
  destruct σ as [[dn ms gr bd] [p w e a r df n k] c ret pan cl rcv sl cls]; cbn.
  intros (Hheld & Hdef) Hs. destruct pan; [done|].
  step_split Hs l dn ms gr bd p e a r df n k c
    ltac:(cbn in *; rewrite ?responses_S;
          repeat match goal with H : Do _ = _ |- _ => rewrite H end;
          cbn; repeat split;
          first [ done | by apply Hdef
                | by (intros _; rewrite (Hdef eq_refl)) | idtac ]).
  all: intros b st Hb HDo; rewrite ?elem_of_union, ?elem_of_singleton.
  all: try (destruct (Hheld b st Hb HDo) as [?|[? ?]]; intuition congruence).
  all: destruct (decide (b = n)) as [->|];
    [ first [congruence | intuition congruence]
    | destruct (Hheld b st ltac:(lia) HDo) as [?|[? ?]]; intuition congruence ].
Qed.

Lemma bodies_invariant_exec ls σ σ' :
  bodies_invariant σ → exec ls σ = Some σ' → bodies_invariant σ'.
Proof.
  revert σ. induction ls as [|l ls IH]; intros σ Hinv Hex; cbn in Hex.
  - by injection Hex as <-.
  - destruct (step l σ) as [σ1|] eqn:Hs; [|done].
    apply (IH σ1); [by apply (bodies_invariant_step l σ) | done].
Qed.

(** X8. In every state the program gets to: a body obtained that is not
    closed is the body of the attempt under way, between the call of
    [client.Do] and the close that ends the attempt, so that every body is
    closed before the next attempt and one body at most is open; and
    until the goroutine returns, no deferred close has run and there is
    one for each response obtained. *)
Theorem bodies_closed_before_next_attempt exp agg σ :
  reachable exp agg σ →
  (∀ b status, b < attempts (task σ) → Do b = Response status →
     b ∉ closed σ → b = resp (task σ) ∧ holding (pc (task σ)) = true)
  ∧ (holding (pc (task σ)) = false →
     ∀ b status, b < attempts (task σ) → Do b = Response status → b ∈ closed σ)
  ∧ (returning (pc (task σ)) = false →
     deferred (task σ) = responses (attempts (task σ))).
Proof.
  intros [ls Hex].
  assert (Hinit : bodies_invariant (newStream exp agg)).
  { unfold bodies_invariant; cbn. repeat split; try done. intros; lia. }
  destruct (bodies_invariant_exec ls _ σ Hinit Hex) as (Hheld & Hdef).
  split; [|split]; try done.
  - intros b status Hb HDo Hopen. by destruct (Hheld b status Hb HDo).
  - intros Hhold b status Hb HDo.
    destruct (Hheld b status Hb HDo) as [|[_ Hh]]; [done|congruence].
Qed.

(** *** The waits *)





(** *** The messages *)

Lemma received_invariant_step l σ σ' :
  received_invariant σ → step l σ = Some σ' → received_invariant σ'.
Proof.
  unfold received_invariant, step.
  destruct σ as [[dn ms gr bd] [p w e a r df n k] c ret pan cl rcv sl cls]; cbn.
  intros (Hsel & Hsend & l0 & tail & Hrcv & Hall & Htail) Hs.
  destruct pan; [done|].
  step_split Hs l dn ms gr bd p e a r df n k c
    ltac:(cbn in *;
          first
            [ by (split; [by intros ? [=]|]; split; [by intros ? [=]|];
                  exists l0, tail; split; [done|]; split; [done|];
                  first [ done
                        | destruct Htail as [->|(err' & -> & ? & ?)];
                          [by left | first [done | right; eauto]] ])
            | by (split; [done|]; split; [done|]; exists l0, tail)
            | idtac ]).
  - split; [by intros ? [=]|]. split; [by intros ? [= <-]|].
    exists l0, tail. split; [done|]. split; [done|].
    destruct Htail as [->|(? & ? & ? & ?)]; [by left | done].
  - match goal with
    | Hr : readNext r k = Token ?data, Hlen : String.length ?data ≠ _ |- _ =>
        split; [intros ? [= <-]; by exists r, k, data|]
    end.
    split; [by intros ? [=]|].
    exists l0, tail. split; [done|]. split; [done|].
    destruct Htail as [->|(? & ? & ? & ?)]; [by left | done].
  - split; [by intros ? [=]|]. split; [by intros ? [=]|].
    destruct Htail as [->|(? & ? & ? & ?)]; [|done].
    exists l0, [MError err]. rewrite app_nil_r. split; [done|]. split; [done|].
    right. exists err. split; [done|]. split; [by apply Hsend | done].
  - split; [by intros ? [=]|]. split; [by intros ? [=]|].
    destruct Htail as [->|(? & ? & ? & ?)]; [|done].
    exists (l0 ++ [m]), []. rewrite !app_nil_r. split; [done|].
    split; [|by left]. apply Forall_app. split; [done|].
    constructor; [by apply Hsel | constructor].
Qed.

Lemma received_invariant_exec ls σ σ' :
  received_invariant σ → exec ls σ = Some σ' → received_invariant σ'.
Proof.
  revert σ. induction ls as [|l ls IH]; intros σ Hinv Hex; cbn in Hex.
  - by injection Hex as <-.
  - destruct (step l σ) as [σ1|] eqn:Hs; [|done].
    apply (IH σ1); [by apply (received_invariant_step l σ) | done].
Qed.

(** X10. Whatever the schedule, what the consumer has received from
    [Messages] is a sequence of decoded tokens, each the [getMessage] of a
    non-empty token some response body gave, followed by at most one
    error: the error of the last request, which [retry] sends just before
    it returns. Nothing is received after that error, and nothing is
    received that the scanner did not give. *)
Theorem received_provenance exp agg σ :
  reachable exp agg σ →
  ∃ l tail, received σ = l ++ tail ∧ Forall from_token l ∧
    (tail = [] ∨
     ∃ err, tail = [MError err] ∧
       Do (pred (attempts (task σ))) = DoError err ∧
       returning (pc (task σ)) = true).
Proof.
  intros [ls Hex].
  assert (Hinit : received_invariant (newStream exp agg)).
  { split; [by intros ? [=]|]. split; [by intros ? [=]|].
    exists [], []. split; [done|]. split; [constructor | by left]. }
  by destruct (received_invariant_exec ls _ _ Hinit Hex) as (_ & _ & H).
Qed.

(** *** The policies *)

Lemma slept_weaken (exp : E) (agg : A) n (sl : list Z) :
  Forall (λ d, ∃ k, k ≤ n ∧ d = (backoffs exp agg k).1.1) sl →
  Forall (λ d, ∃ k, k ≤ S n ∧ d = (backoffs exp agg k).1.1) sl.
Proof.
  intros Hall. eapply Forall_impl; [exact Hall|].
  intros d (k & Hk & Hd). exists k. split; [lia | done].
Qed.

Lemma backoffs_invariant_step exp agg l σ σ' :
  backoffs_invariant exp agg σ → step l σ = Some σ' → backoffs_invariant exp agg σ'.
Proof.
  unfold backoffs_invariant, settled, step.
  destruct σ as [[dn ms gr bd] [p w e a r df n k] c ret pan cl rcv sl cls]; cbn.
  intros (Hrecv & Hpol & Hslept) Hs.
  destruct pan; [done|].
  step_split Hs l dn ms gr bd p e a r df n k c
    ltac:(cbn in *;
          first
            [ by (split; [done|]; split; [done|])
            | idtac ]).
  - split; [done|]. split; [|by apply slept_weaken].
    rewrite <- Hpol. by match goal with H : Do n = _ |- _ => rewrite H end.
  - split; [|split; [done | by apply slept_weaken]].
    intros _. split; [lia|]. congruence.
  - split; [done|]. split; [|by apply slept_weaken].
    rewrite <- Hpol.
    match goal with H : Do n = _ |- _ => rewrite H end.
    rewrite bool_decide_false, bool_decide_true by done.
    by match goal with H : NextBackOff e = _ |- _ => rewrite H end.
  - split; [done|]. split; [|by apply slept_weaken].
    rewrite <- Hpol.
    match goal with H : Do n = _ |- _ => rewrite H end.
    rewrite bool_decide_false, bool_decide_false, bool_decide_true by done.
    by match goal with H : NextBackOff a = _ |- _ => rewrite H end.
  - split; [done|]. split; [|by apply slept_weaken].
    rewrite <- Hpol.
    match goal with H : Do n = _ |- _ => rewrite H end.
    by rewrite !bool_decide_false by done.
  - split; [done|]. split; [|done].
    destruct (Hrecv eq_refl) as [Hn HDo]. destruct n as [|n]; [lia|].
    cbn in *. by rewrite <- Hpol, HDo.
  - split; [done|]. split; [done|].
    apply Forall_app. split; [done|]. constructor; [|constructor].
    exists n. split; [lia|]. by rewrite <- Hpol.
Qed.

Lemma backoffs_invariant_exec exp agg ls σ σ' :
  backoffs_invariant exp agg σ → exec ls σ = Some σ' → backoffs_invariant exp agg σ'.
Proof.
  revert σ. induction ls as [|l ls IH]; intros σ Hinv Hex; cbn in Hex.
  - by injection Hex as <-.
  - destruct (step l σ) as [σ1|] eqn:Hs; [|done].
    apply (IH σ1); [by apply (backoffs_invariant_step exp agg l σ) | done].
Qed.

(** X11. In every state the program gets to, whatever the schedule,
    [wait] and the two policies are what the switch of [retry] makes of
    the responses so far, from the policies [newStream] gave: each 503
    has moved the normal policy on by one, each 420 or 429 the aggressive
    one, each 200 has reset both once [receive] was back, and an error of
    the transport and any other status have changed nothing; [wait] is
    the last duration a policy gave, a 200 does not change it. Every wait
    made was of the duration [wait] had after one of the calls made. *)
Theorem backoffs_follow_responses exp agg σ :
  reachable exp agg σ →
  (wait (task σ), expBackOff (task σ), aggExpBackOff (task σ))
  = backoffs exp agg (settled σ)
  ∧ (before_reset (pc (task σ)) = true →
     Do (pred (attempts (task σ))) = Response 200)
  ∧ Forall (λ d, ∃ k, k ≤ attempts (task σ) ∧ d = (backoffs exp agg k).1.1)
           (slept σ).
Proof.
  intros [ls Hex].
  assert (Hinit : backoffs_invariant exp agg (newStream exp agg)).
  { unfold backoffs_invariant, settled; cbn. split; [done|]. split; [done | constructor]. }
  destruct (backoffs_invariant_exec exp agg ls _ σ Hinit Hex) as (Hrecv & Hpol & Hslept).
  split; [done|]. split; [|done]. intros Hb. by destruct (Hrecv Hb).
Qed.
End RetryMoreProperties.

(** *** The further properties on tokens and schedules *)

Section MoreExamples.
#[local] Existing Instance spec_declarations.

Lemma hasPath_top_level_witness :
  Scanner.parse deletion_token
  = Some (JObject
            [("event", JNumber "1");
             ("delete", JObject [("status", JObject [("id", JString "1")])])])
  ∧ hasPath (unmarshal deletion_token TMapAny).1 "delete" = true
  ∧ hasPath (unmarshal deletion_token TMapAny).1 "status" = false.
Proof.
  split; [vm_compute; reflexivity|].
  split.
  - rewrite (hasPath_top_level deletion_token
               [("event", JNumber "1");
                ("delete", JObject [("status", JObject [("id", JString "1")])])]
               "delete"); vm_compute; reflexivity.
  - rewrite (hasPath_top_level deletion_token
               [("event", JNumber "1");
                ("delete", JObject [("status", JObject [("id", JString "1")])])]
               "status"); vm_compute; reflexivity.
Defined.

Lemma getMessage_shape_by_names_witness :
  Scanner.parse deletion_token
  = Some (JObject
            [("event", JNumber "1");
             ("delete", JObject [("status", JObject [("id", JString "1")])])])
  ∧ Scanner.parse (object2 "delete" "true" "event" "null")
    = Some (JObject [("delete", JBool true); ("event", JNull)])
  ∧ (unmarshal deletion_token TMapAny).2 = None
  ∧ (unmarshal (object2 "delete" "true" "event" "null") TMapAny).2 = None
  ∧ shape_of (getMessage (object2 "delete" "true" "event" "null"))
    = Some StatusDeletionNotice_shape.
Proof.
  split; [vm_compute; reflexivity|]. split; [vm_compute; reflexivity|].
  split; [vm_compute; reflexivity|]. split; [vm_compute; reflexivity|].
  rewrite <- (getMessage_shape_by_names deletion_token
                (object2 "delete" "true" "event" "null")
                [("event", JNumber "1");
                 ("delete", JObject [("status", JObject [("id", JString "1")])])]
                [("delete", JBool true); ("event", JNull)]).
  - vm_compute; reflexivity.
  - vm_compute; reflexivity.
  - vm_compute; reflexivity.
  - vm_compute; reflexivity.
  - vm_compute; reflexivity.
  - intros key _. cbn. rewrite !elem_of_cons, !elem_of_nil. tauto.
Defined.

Lemma panic_needs_two_calls_witness :
  after transport_down
    [Call; Stopper; Stopper; Run; Run; Run; Run; Stopper; Call; Stopper]
  = Some (state_after transport_down
            [Call; Stopper; Stopper; Run; Run; Run; Run; Stopper; Call; Stopper])
  ∧ calls (state_after transport_down
             [Call; Stopper; Stopper; Run; Run; Run; Run; Stopper; Call; Stopper])
    = 2.
Proof.
  split; [vm_compute; reflexivity|].
  destruct (panic_needs_two_calls (W := transport_down)
              newExponentialBackOff newAggressiveExponentialBackOff
              [Call; Stopper; Stopper; Run; Run; Run; Run; Stopper; Call; Stopper]
              (state_after transport_down
                 [Call; Stopper; Stopper; Run; Run; Run; Run; Stopper; Call; Stopper]))
    as [Hcalls _].
  - vm_compute; reflexivity.
  - exact Hcalls.
Defined.

Lemma Stop_returned_goroutine_done_witness :
  reachable (W := transport_down)
    newExponentialBackOff newAggressiveExponentialBackOff
    (state_after transport_down
       [Run; Run; Receive; Run; Run; Call; Stopper; Stopper; Stopper])
  ∧ 0 < returned (state_after transport_down
                    [Run; Run; Receive; Run; Run; Call; Stopper; Stopper; Stopper])
  ∧ pc (task (state_after transport_down
                [Run; Run; Receive; Run; Run; Call; Stopper; Stopper; Stopper]))
    = CloseMessages
  ∧ done (stream (state_after transport_down
                    [Run; Run; Receive; Run; Run; Call; Stopper; Stopper; Stopper]))
    = Closed.
Proof.
  split; [exists [Run; Run; Receive; Run; Run; Call; Stopper; Stopper; Stopper];
          vm_compute; reflexivity|].
  split; [vm_compute; lia|]. split; [vm_compute; reflexivity|].
  destruct (Stop_returned_goroutine_done (W := transport_down)
              newExponentialBackOff newAggressiveExponentialBackOff
              (state_after transport_down
                 [Run; Run; Receive; Run; Run; Call; Stopper; Stopper; Stopper]))
    as (_ & Hdone & _).
  - exists [Run; Run; Receive; Run; Run; Call; Stopper; Stopper; Stopper];
      vm_compute; reflexivity.
  - vm_compute; lia.
  - exact Hdone.
Defined.

Lemma cancelled_goroutine_bounded_witness :
  done (stream cancelled_mid_stream) = Closed
  ∧ exec (W := streaming) [OnDone; Run; Run] cancelled_mid_stream
    = Some cancelled_mid_stream_later
  ∧ rank cancelled_mid_stream = 11
  ∧ 3 + rank cancelled_mid_stream_later ≤ 11.
Proof.
  split; [vm_compute; reflexivity|]. split; [vm_compute; reflexivity|].
  split; [vm_compute; reflexivity|].
  destruct (cancelled_goroutine_bounded (W := streaming) [OnDone; Run; Run]
              cancelled_mid_stream cancelled_mid_stream_later) as (Hrank & _).
  - vm_compute; reflexivity.
  - vm_compute; reflexivity.
  - replace 11 with (rank cancelled_mid_stream) by (vm_compute; reflexivity).
    exact Hrank.
Defined.

Lemma cancelled_one_more_message_witness :
  done (stream cancelled_mid_stream) = Closed
  ∧ exec (W := streaming) [Receive; Run; Run; Run; Run] cancelled_mid_stream
    = Some cancelled_mid_stream_received
  ∧ length (received cancelled_mid_stream_received)
    ≤ length (received cancelled_mid_stream) + 1.
Proof.
  split; [vm_compute; reflexivity|]. split; [vm_compute; reflexivity|].
  destruct (cancelled_one_more_message (W := streaming)
              [Receive; Run; Run; Run; Run]
              cancelled_mid_stream cancelled_mid_stream_received) as (Hlen & _).
  - vm_compute; reflexivity.
  - vm_compute; reflexivity.
  - exact Hlen.
Defined.

Lemma Stop_returns_with_consumer_witness :
  reachable (W := streaming)
    newExponentialBackOff newAggressiveExponentialBackOff waiting_at_read
  ∧ panicked waiting_at_read = false
  ∧ caller waiting_at_read = AtWait
  ∧ pc (task waiting_at_read) = ReadNext
  ∧ resp (task waiting_at_read) ∈ closed waiting_at_read
  ∧ ∃ ls σ', length ls ≤ rank waiting_at_read
             ∧ exec (W := streaming) ls waiting_at_read = Some σ'
             ∧ unblocked_schedule (W := streaming) ls waiting_at_read = true
             ∧ pc (task σ') = Exited.
Proof.
  split; [exists [Run; Run; Run; Call; Stopper; Stopper];
          vm_compute; reflexivity|].
  split; [vm_compute; reflexivity|]. split; [vm_compute; reflexivity|].
  split; [vm_compute; reflexivity|].
  destruct (Stop_returns_with_consumer (W := streaming)
              newExponentialBackOff newAggressiveExponentialBackOff
              waiting_at_read)
    as (_ & Hclosed & Hrun).
  - exists [Run; Run; Run; Call; Stopper; Stopper];
      vm_compute; reflexivity.
  - vm_compute; reflexivity.
  - vm_compute; reflexivity.
  - split; [apply Hclosed; vm_compute; reflexivity|].
    destruct Hrun as (ls & σ' & _ & Hlen & Hex & Hreads & Hpc & _).
    + vm_compute. discriminate.
    + by exists ls, σ'.
Defined.

Lemma bodies_closed_before_next_attempt_witness :
  reachable (W := overloaded_then_streaming)
    newExponentialBackOff newAggressiveExponentialBackOff
    (state_after overloaded_then_streaming [Run; Run; Run; Run; Run; Run; Run])
  ∧ pc (task (state_after overloaded_then_streaming
                [Run; Run; Run; Run; Run; Run; Run])) = ReadNext
  ∧ deferred (task (state_after overloaded_then_streaming
                      [Run; Run; Run; Run; Run; Run; Run]))
    = responses (W := overloaded_then_streaming) 2.
Proof.
  split; [exists [Run; Run; Run; Run; Run; Run; Run]; vm_compute; reflexivity|].
  split; [vm_compute; reflexivity|].
  destruct (bodies_closed_before_next_attempt (W := overloaded_then_streaming)
              newExponentialBackOff newAggressiveExponentialBackOff
              (state_after overloaded_then_streaming
                 [Run; Run; Run; Run; Run; Run; Run]))
    as (_ & _ & Hdef).
  - exists [Run; Run; Run; Run; Run; Run; Run]; vm_compute; reflexivity.
  - rewrite Hdef; vm_compute; reflexivity.
Defined.


Lemma received_provenance_witness :
  reachable (W := streaming)
    newExponentialBackOff newAggressiveExponentialBackOff stream_ended
  ∧ received stream_ended
    = [getMessage unrecognized_token; getMessage deletion_token]
  ∧ ∃ l tail, received stream_ended = l ++ tail
              ∧ Forall (from_token (W := streaming)) l.
Proof.
  split; [exists [Run; Run; Run; Run; Run; Run; Receive; Run; Run; Run; Run;
                  Receive; Run; Run; Run; Run; Run];
          vm_compute; reflexivity|].
  split; [vm_compute; reflexivity|].
  destruct (received_provenance (W := streaming)
              newExponentialBackOff newAggressiveExponentialBackOff stream_ended)
    as (l & tail & Hrcv & Hall & _).
  - exists [Run; Run; Run; Run; Run; Run; Receive; Run; Run; Run; Run;
            Receive; Run; Run; Run; Run; Run];
      vm_compute; reflexivity.
  - by exists l, tail.
Defined.
Lemma backoffs_follow_responses_witness :
  reachable (W := overloaded_then_streaming)
    newExponentialBackOff newAggressiveExponentialBackOff overloaded_twice_slept
  ∧ slept overloaded_twice_slept = [(5 * second)%Z; (5 * second)%Z]
  ∧ (wait (task overloaded_twice_slept),
     expBackOff (task overloaded_twice_slept),
     aggExpBackOff (task overloaded_twice_slept))
    = backoffs (W := overloaded_then_streaming)
        newExponentialBackOff newAggressiveExponentialBackOff 2.
Proof.
  split; [exists [Run; Run; Run; Run; Run; Run; Run; Run; Run; Run; Run];
          vm_compute; reflexivity|].
  split; [vm_compute; reflexivity|].
  destruct (backoffs_follow_responses (W := overloaded_then_streaming)
              newExponentialBackOff newAggressiveExponentialBackOff
              overloaded_twice_slept) as (Hpol & _).
  - exists [Run; Run; Run; Run; Run; Run; Run; Run; Run; Run; Run];
      vm_compute; reflexivity.
  - exact Hpol.
Defined.
End MoreExamples.
